(** * LiteEthPacketizer: header encoding and framing state machine

    A shallow embedding of [liteeth/generic/packetizer.py].  Signals are
    modelled as a bit width together with an unsigned value in [Z]; the
    combinatorial part of the design is a function of the registers and of
    the inputs of one clock tick, the synchronous part is the register
    update at the end of that tick. *)

From Stdlib Require Import Ascii String ZArith List Bool Lia Permutation.
Import ListNotations.

Local Open Scope Z_scope.

(** ** Signals, slices and concatenation *)

Module Fhdl.

(** A Migen signal: [flen] bits holding the unsigned value [val]. *)
Record Signal := mkSig { flen : Z; val : Z }.

(** Driving a [w]-bit signal with an integer keeps its low [w] bits. *)
Definition drive (w x : Z) : Signal := mkSig w (Z.land x (Z.ones (Z.max 0 w))).

(** Python's [slice.indices] for one bound of a step-1 slice of a
    sequence of [len] items: negative bounds count from the end, and the
    result is clamped to [0, len]. *)
Definition slice_index (len i : Z) : Z :=
  if i <? 0 then Z.max (i + len) 0 else Z.min i len.

(** [s[lo:hi]] on a signal. *)
Definition slice (s : Signal) (lo hi : Z) : Signal :=
  let a := slice_index (flen s) lo in
  let b := slice_index (flen s) hi in
  let w := Z.max 0 (b - a) in
  mkSig w (Z.land (Z.shiftr (val s) a) (Z.ones w)).

(** [s[lo:]] on a signal. *)
Definition slice_from (s : Signal) (lo : Z) : Signal := slice s lo (flen s).

(** [s[lo:hi].eq(rhs)]: the bits [lo, hi) of [s] take the low bits of
    [rhs]; a narrower [rhs] is zero-extended, the other bits of [s] keep
    their value. *)
Definition assign_slice (s : Signal) (lo hi : Z) (rhs : Signal) : Signal :=
  let a := slice_index (flen s) lo in
  let b := slice_index (flen s) hi in
  let w := Z.max 0 (b - a) in
  mkSig (flen s)
        (Z.lor (Z.ldiff (val s) (Z.shiftl (Z.ones w) a))
               (Z.shiftl (Z.land (val rhs) (Z.ones w)) a)).

(** [Cat(l)]: the first element occupies the least significant bits. *)
Definition Cat (l : list Signal) : Signal :=
  fold_right
    (fun s acc => mkSig (flen s + flen acc)
                        (Z.lor (val s) (Z.shiftl (val acc) (flen s))))
    (mkSig 0 0) l.

(** [bits_for(n)] for [n >= 0]: the number of bits of an unsigned signal
    that can hold [n]. *)
Definition bits_for (n : Z) : Z := Z.log2 n + 1.

End Fhdl.
Import Fhdl.

(** ** Helpers of [liteeth.common] *)

(** Modelled from the spec: [reverse_bytes] of [liteeth.common] is not part
    of the sources at hand.  The specification asks for every field to be
    written "byte-order-reversed", "most-significant byte first": the
    signal is cut into bytes from its least significant end (the last one
    may be partial) and the bytes are concatenated in the opposite order. *)
Definition reverse_bytes_upto (s : Signal) (n : nat) : Signal :=
  Cat (map (fun i => slice s (i * 8) (Z.min ((i + 1) * 8) (flen s)))
           (rev (map Z.of_nat (seq 0 n)))).

Definition reverse_bytes (s : Signal) : Signal :=
  let n := (flen s + 7) / 8 in
  reverse_bytes_upto s (Z.to_nat n).

(** A header field descriptor: [HField(byte, offset, width)]. *)
Record HField := mkHField { byte : Z; offset : Z; width : Z }.

(** ** [_encode_header] *)

(** [sorted(h_dict.items())]: the keys of a dict are distinct, so the
    items are ordered by their name alone. *)
Fixpoint insert_item (x : string * HField) (l : list (string * HField))
  : list (string * HField) :=
  match l with
  | [] => [x]
  | y :: l' => if String.leb (fst x) (fst y) then x :: l else y :: insert_item x l'
  end.

Definition sorted_items (h_dict : list (string * HField)) : list (string * HField) :=
  fold_right insert_item [] h_dict.

(** One statement [h_signal[start:end].eq(rhs)]. *)
Record Assign := mkAssign { a_start : Z; a_end : Z; a_rhs : Signal }.

(** The loop body of [_encode_header] for one item [(k, v)]. *)
Definition encode_field (obj : string -> Signal) (kv : string * HField) : Assign :=
  let k := fst kv in
  let v := snd kv in
  let start := byte v * 8 + offset v in
  let end_ := start + width v in
  mkAssign start end_ (reverse_bytes (obj k)).

Definition _encode_header (h_dict : list (string * HField)) (obj : string -> Signal)
  : list Assign :=
  map (encode_field obj) (sorted_items h_dict).

(** The statement [h_signal[start:end].eq(rhs)] executed on the current
    value of [h_signal]. *)
Definition apply_assign (s : Signal) (a : Assign) : Signal :=
  assign_slice s (a_start a) (a_end a) (a_rhs a).

(** The combinatorial block [self.comb += r] on a signal of [len] bits:
    the signal starts from its reset value 0 and the statements are
    executed in order, a later one overriding an earlier one. *)
Definition run_assigns (len : Z) (r : list Assign) : Signal :=
  fold_left apply_assign r (mkSig len 0).

(** ** The packetizer *)

(** Python's [a // b]: floor division, an exception when [b] is zero. *)
Definition py_floordiv (a b : Z) : option Z :=
  if b =? 0 then None else Some (a / b).

(** What [__init__] fixes once and for all: the width [dw] of the data
    words, the header layout and length, and the constant
    [header_length//(dw//8)], the number of words of the header. *)
Record Packetizer := mkPacketizer {
  p_dw : Z;
  p_header_type : list (string * HField);
  p_header_length : Z;
  p_header_words : Z
}.

(** Modelled from the spec: [Counter] of [liteeth.common] is not part of
    the sources at hand.  It is the "generic up-counter" of the
    specification: once built, a register of [bits_for(max-1)] bits,
    cleared at the clock edge when [reset] is high, otherwise incremented
    (modulo its width) when [ce] is high. *)
Definition counter_bits (max : Z) : Z := bits_for (max - 1).

Definition counter_sync (max : Z) (reset ce : bool) (value : Z) : Z :=
  if reset then 0
  else if ce then (value + 1) mod 2 ^ counter_bits max
  else value.

(** The exceptions [__init__] can end with. *)
Inductive init_error :=
| ZeroDivisionError
| AssertionError
| AttributeError (name : string).

(** Modelled from the spec: the construction of [Counter(max=...)].  The
    value of the counter is a [Signal(max=max)], whose constructor asserts
    [0 < max - 1]: a counter that cannot count to 1 is refused.  This is
    the rejection, at construction, of a header of fewer than two words. *)
Definition Counter_init (max : Z) : init_error + unit :=
  if 0 <? max - 1 then inr tt else inl AssertionError.

(** [getattr(sink, k)]: [sink_signals] lists the names that resolve on the
    sink, which its description fixes and which are all taken to be
    signals; any other name raises [AttributeError]. *)
Definition has_attr (sink_signals : list string) (k : string) : bool :=
  existsb (String.eqb k) sink_signals.

(** [LiteEthPacketizer.__init__]: [sink_signals] are the names that
    resolve on the sink, [dw] is [flen(sink.data)].  In the order of the
    body: the division [header_length//(dw//8)] and the construction of
    the counter (line 22), then [_encode_header] (line 25), which
    evaluates [getattr(sink, k)] for every field in the order of the
    names.  No statement looks at the position or the width of a field.
    The signals of lines 15 and 19 are those of a positive
    [header_length]; what their constructor does with another length is
    left out, such a length being refused by the counter in any case. *)
Definition LiteEthPacketizer_init
    (sink_signals : list string)
    (dw : Z) (header_type : list (string * HField)) (header_length : Z)
  : init_error + Packetizer :=
  match py_floordiv header_length (dw / 8) with
  | None => inl ZeroDivisionError
  | Some n =>
      match Counter_init n with
      | inl e => inl e
      | inr _ =>
          match find (fun kv => negb (has_attr sink_signals (fst kv)))
                     (sorted_items header_type) with
          | Some kv => inl (AttributeError (fst kv))
          | None => inr (mkPacketizer dw header_type header_length n)
          end
      end
  end.

Inductive fsm_state := IDLE | SEND_HEADER | COPY.

(** The signals driven by the upstream endpoint: the handshake and payload
    of [sink], and its parameters (one per header field). *)
Record SinkIn := mkSinkIn {
  sink_stb : bool;
  sink_sop : bool;
  sink_eop : bool;
  sink_data : Z;
  sink_error : bool;
  sink_param : string -> Signal
}.

(** The registers: the FSM state, [header_reg] and [counter.value]. *)
Record Regs := mkRegs {
  state : fsm_state;
  header_reg : Z;
  counter_value : Z
}.

(** The combinatorial signals of one tick; [source.data] is as wide as
    [sink.data]. *)
Record Comb := mkComb {
  sink_ack : bool;
  source_stb : bool;
  source_sop : bool;
  source_eop : bool;
  source_data : Z;
  source_error : bool;
  load : bool;
  shift : bool;
  counter_reset : bool;
  counter_ce : bool;
  next_state : fsm_state
}.

Section Step.

Variable p : Packetizer.

Let dw := p_dw p.
Let header_bits := p_header_length p * 8.

(** [self.header], driven combinatorially by [_encode_header]. *)
Definition header (sink : SinkIn) : Signal :=
  run_assigns header_bits (_encode_header (p_header_type p) (sink_param sink)).

(** [fsm.act("IDLE", ...)] *)
Definition act_IDLE (sink : SinkIn) (source_ack : bool) : Comb :=
  if sink_stb sink && sink_sop sink then
    let stb := true in
    {| sink_ack := false;
       counter_reset := true;
       source_stb := stb;
       source_sop := true;
       source_eop := false;
       source_data := val (slice (header sink) 0 dw);
       source_error := false;
       load := stb && source_ack;
       shift := false;
       counter_ce := false;
       next_state := if stb && source_ack then SEND_HEADER else IDLE |}
  else
    {| sink_ack := true;
       counter_reset := true;
       source_stb := false; source_sop := false; source_eop := false;
       source_data := 0; source_error := false;
       load := false; shift := false; counter_ce := false;
       next_state := IDLE |}.

(** [fsm.act("SEND_HEADER", ...)] *)
Definition act_SEND_HEADER (r : Regs) (sink : SinkIn) (source_ack : bool) : Comb :=
  let stb := true in
  {| source_stb := stb;
     source_sop := false;
     source_eop := sink_eop sink && (counter_value r =? p_header_words p - 2);
     source_data := val (slice (mkSig header_bits (header_reg r)) dw (2 * dw));
     shift := stb && source_ack;
     counter_ce := stb && source_ack;
     next_state :=
       if (stb && source_ack) && (counter_value r =? p_header_words p - 2)
       then COPY else SEND_HEADER;
     sink_ack := false; source_error := false; load := false;
     counter_reset := false |}.

(** [fsm.act("COPY", ...)] *)
Definition act_COPY (sink : SinkIn) (source_ack : bool) : Comb :=
  let stb := sink_stb sink in
  let eop := sink_eop sink in
  {| source_stb := stb;
     source_sop := false;
     source_eop := eop;
     source_data := sink_data sink;
     source_error := sink_error sink;
     sink_ack := stb && source_ack;
     next_state := if (stb && source_ack) && eop then IDLE else COPY;
     load := false; shift := false; counter_reset := false;
     counter_ce := false |}.

Definition comb (r : Regs) (sink : SinkIn) (source_ack : bool) : Comb :=
  match state r with
  | IDLE => act_IDLE sink source_ack
  | SEND_HEADER => act_SEND_HEADER r sink source_ack
  | COPY => act_COPY sink source_ack
  end.

(** [self.sync] on [header_reg]. *)
Definition header_reg_sync (c : Comb) (sink : SinkIn) (hr : Z) : Z :=
  if load c then val (drive header_bits (val (header sink)))
  else if shift c then
    val (drive header_bits
           (val (Cat [slice_from (mkSig header_bits hr) dw; mkSig dw 0])))
  else hr.

(** The clock edge. *)
Definition sync (r : Regs) (sink : SinkIn) (c : Comb) : Regs :=
  mkRegs (next_state c)
         (header_reg_sync c sink (header_reg r))
         (counter_sync (p_header_words p) (counter_reset c) (counter_ce c)
                       (counter_value r)).

Definition step (r : Regs) (sink : SinkIn) (source_ack : bool) : Regs * Comb :=
  let c := comb r sink source_ack in (sync r sink c, c).

End Step.

(** The registers after reset. *)
Definition reset_regs : Regs := mkRegs IDLE 0 0.

(** ** The two endpoints *)

(** One word offered by the upstream endpoint, with the parameters that
    accompany it. *)
Record Word := mkWord {
  w_sop : bool;
  w_eop : bool;
  w_data : Z;
  w_error : bool;
  w_param : string -> Signal
}.

(** One word accepted by the downstream endpoint. *)
Record OutWord := mkOut {
  o_data : Z;
  o_sop : bool;
  o_eop : bool;
  o_error : bool
}.

(** The upstream endpoint holds the words it still has to send and
    offers the first of them, unchanged, until it is acknowledged; [valid]
    tells whether it asserts [stb] on this tick. *)
Definition present (valid : bool) (q : list Word) : SinkIn :=
  match q with
  | [] => mkSinkIn false false false 0 false (fun _ => mkSig 0 0)
  | w :: _ => mkSinkIn valid (w_sop w) (w_eop w) (w_data w) (w_error w) (w_param w)
  end.

Definition emitted_word (c : Comb) : OutWord :=
  mkOut (source_data c) (source_sop c) (source_eop c) (source_error c).

(** The whole system between two clock edges: registers and pending
    upstream words. *)
Definition System : Type := Regs * list Word.

Section Run.

Variable p : Packetizer.

(** One tick: [valid] and [ready] are the upstream [stb] and the
    downstream [ack] of that tick.  A word leaves the upstream endpoint
    when [sink.stb & sink.ack], a word is emitted when
    [source.stb & source.ack]. *)
Definition tick (s : System) (valid ready : bool) : System * option OutWord :=
  let sink := present valid (snd s) in
  let rc := step p (fst s) sink ready in
  let c := snd rc in
  let q' := if sink_stb sink && sink_ack c then tl (snd s) else snd s in
  (fst rc, q', if source_stb c && ready then Some (emitted_word c) else None).

(** A run over a schedule of ticks; the result is the final system, the
    words emitted and the FSM states visited, the initial one first. *)
Fixpoint run (sched : list (bool * bool)) (s : System)
  : System * list OutWord * list fsm_state :=
  match sched with
  | [] => (s, [], [state (fst s)])
  | (valid, ready) :: sched' =>
      let '(s1, o) := tick s valid ready in
      let '(s2, out, sts) := run sched' s1 in
      (s2, match o with Some w => w :: out | None => out end, state (fst s) :: sts)
  end.

Definition emitted (sched : list (bool * bool)) (s : System) : list OutWord :=
  snd (fst (run sched s)).

Definition states (sched : list (bool * bool)) (s : System) : list fsm_state :=
  snd (run sched s).

Definition final (sched : list (bool * bool)) (s : System) : System :=
  fst (fst (run sched s)).

End Run.

(** Upstream always valid, downstream always ready, for [n] ticks. *)
Definition always_ready (n : nat) : list (bool * bool) := repeat (true, true) n.

(** A frame: the payload words in order, [sop] on the first, [eop] on the
    last, all carrying the same parameters. *)
Fixpoint frame_from (obj : string -> Signal) (first : bool) (payload : list Z)
  : list Word :=
  match payload with
  | [] => []
  | [d] => [mkWord first true d false obj]
  | d :: rest => mkWord first false d false obj :: frame_from obj false rest
  end.

Definition frame (obj : string -> Signal) (payload : list Z) : list Word :=
  frame_from obj true payload.

Module Example3.
(** [W] = 8, three header bytes 07 12 34. *)
Definition layout : list (string * HField) :=
  [("kind"%string, mkHField 0 0 8); ("tag"%string, mkHField 1 0 16)].
Definition meta (k : string) : Signal :=
  if String.eqb k "kind" then drive 8 7 else drive 16 0x1234.
Definition pk : Packetizer := mkPacketizer 8 layout 3 3.
(** The signals of a sink that carries the two fields. *)
Definition sink_signals : list string :=
  ["data"%string; "error"%string; "kind"%string; "tag"%string].
(** The system one tick after reset, the first header word accepted. *)
Definition after_first_word : System :=
  final pk (always_ready 1) (reset_regs, frame meta [0xAA; 0xBB]).
End Example3.


(** ** The expected output, as a function of the upstream words *)

(** Word [i] of a bit vector cut into [dw]-bit words, least significant
    word first. *)
Definition wordn (dw x i : Z) : Z := Z.land (Z.shiftr x (i * dw)) (Z.ones dw).

Section Expected.

Variable p : Packetizer.

(** The header announced by a pending upstream word. *)
Definition header_of (w : Word) : Z := val (header p (present true [w])).

(** Header word [i] of the frame opened by [w]: [sop] on word 0, [eop] on
    the last header word when the opening word of the frame is also its
    last. *)
Definition hword (w : Word) (i : nat) : OutWord :=
  mkOut (wordn (p_dw p) (header_of w) (Z.of_nat i))
        (Nat.eqb i 0)
        (w_eop w && (Z.of_nat i =? p_header_words p - 1))
        false.

Definition header_words (w : Word) : list OutWord :=
  map (hword w) (seq 0 (Z.to_nat (p_header_words p))).

(** A payload word forwarded in [COPY]. *)
Definition fwd (w : Word) : OutWord :=
  mkOut (w_data w) false (w_eop w) (w_error w).

(** Everything the packetizer is to emit for the pending words [q];
    [copying] tells whether a frame is open. *)
Fixpoint expected (copying : bool) (q : list Word) : list OutWord :=
  match q with
  | [] => []
  | w :: q' =>
      if copying then fwd w :: expected (negb (w_eop w)) q'
      else if w_sop w then header_words w ++ fwd w :: expected (negb (w_eop w)) q'
      else expected false q'
  end.

(** What is still to be emitted, for each FSM state. *)
Definition remaining (s : System) : list OutWord :=
  match state (fst s) with
  | IDLE => expected false (snd s)
  | COPY => expected true (snd s)
  | SEND_HEADER =>
      match snd s with
      | [] => []
      | w :: _ =>
          let c := Z.to_nat (counter_value (fst s)) in
          map (hword w) (seq (S c) (Z.to_nat (p_header_words p) - 1 - c))
          ++ expected true (snd s)
      end
  end.

(** The invariant of the reachable systems: in [SEND_HEADER] the frame's
    opening word is still pending, the counter has not passed its
    threshold, and the register holds the header words yet to be sent,
    the next one in second position. *)
Definition inv (s : System) : Prop :=
  match state (fst s) with
  | SEND_HEADER =>
      match snd s with
      | [] => False
      | w :: _ =>
          0 <= counter_value (fst s) <= p_header_words p - 2 /\
          forall j, 1 <= j -> counter_value (fst s) + j <= p_header_words p - 1 ->
                    wordn (p_dw p) (header_reg (fst s)) j
                    = wordn (p_dw p) (header_of w) (counter_value (fst s) + j)
      end
  | _ => True
  end.

End Expected.

(** A configuration the design is meant for: words of whole bytes, a
    header of at least two whole words. *)
Definition valid_config (p : Packetizer) : Prop :=
  0 < p_dw p /\ p_dw p mod 8 = 0 /\
  p_header_length p = p_header_words p * (p_dw p / 8) /\
  2 <= p_header_words p.

(** The constructor arguments the design is meant for: [dw] a positive
    multiple of 8, a header of a whole number of words, at least two. *)
Definition valid_geometry (dw header_length : Z) : Prop :=
  0 < dw /\ dw mod 8 = 0 /\ (header_length * 8) mod dw = 0 /\
  2 <= header_length * 8 / dw.

(** ** Byte streams *)

(** The [n] low bytes of [x], least significant first: the order in which
    the bytes of a word travel. *)
Fixpoint bytes_of (n : nat) (x : Z) : list Z :=
  match n with
  | O => []
  | S n' => Z.land x (Z.ones 8) :: bytes_of n' (Z.shiftr x 8)
  end.

Definition word_bytes (dw x : Z) : list Z := bytes_of (Z.to_nat (dw / 8)) x.

Definition stream_bytes (dw : Z) (ws : list Z) : list Z :=
  concat (map (word_bytes dw) ws).

(** The header bytes of a frame whose parameters are [obj]. *)
Definition encoded_header (p : Packetizer) (obj : string -> Signal) : Z :=
  val (run_assigns (p_header_length p * 8) (_encode_header (p_header_type p) obj)).

Definition header_bytes (p : Packetizer) (obj : string -> Signal) : list Z :=
  bytes_of (Z.to_nat (p_header_length p)) (encoded_header p obj).

(** ** Schedules *)

(** The number of ticks on which the upstream is valid and the downstream
    ready. *)
Fixpoint productive (sched : list (bool * bool)) : nat :=
  match sched with
  | [] => 0
  | (valid, ready) :: sched' =>
      (if valid && ready then 1 else 0) + productive sched'
  end.

(** Downstream ready every other tick, [n] times. *)
Fixpoint every_other (n : nat) : list (bool * bool) :=
  match n with
  | O => []
  | S n' => (true, false) :: (true, true) :: every_other n'
  end.

(** Downstream ready only after [idle] ticks, then for [n] ticks. *)
Definition ready_after (idle n : nat) : list (bool * bool) :=
  repeat (true, false) idle ++ repeat (true, true) n.

(** The number of ticks that certainly suffice to drain the system. *)
Definition backlog (p : Packetizer) (s : System) : nat :=
  (length (snd s) + length (remaining p s))%nat.

(** ** Header layouts, in the words of the specification *)

Definition field_start (f : HField) : Z := byte f * 8 + offset f.
Definition field_end (f : HField) : Z := field_start f + width f.

(** Two fields overlap when their bit ranges share a bit. *)
Definition fields_overlap (f g : HField) : bool :=
  (field_start f <? field_end g) && (field_start g <? field_end f).

Fixpoint pairwise_disjoint (l : list HField) : bool :=
  match l with
  | [] => true
  | f :: l' => forallb (fun g => negb (fields_overlap f g)) l' && pairwise_disjoint l'
  end.

(** Every field is a non-empty range of bits of a vector of [len] bits. *)
Definition fields_in_range (len : Z) (l : list HField) : bool :=
  forallb (fun f => (0 <=? byte f) && (0 <=? offset f) && (0 <? width f)
                    && (field_end f <=? len)) l.

(** The fields span exactly [header_length * 8] bits. *)
Definition covers_exactly (header_length : Z) (l : list HField) : bool :=
  fields_in_range (header_length * 8) l
  && (fold_right Z.add 0 (map width l) =? header_length * 8).

(** The configurations the specification calls invalid. *)
Definition invalid_configuration
    (dw : Z) (header_type : list (string * HField)) (header_length : Z) : bool :=
  negb (pairwise_disjoint (map snd header_type))
  || negb (covers_exactly header_length (map snd header_type))
  || (header_length * 8 / dw <? 2)
  || negb ((header_length * 8) mod dw =? 0).

(** Bit [n] of the header belongs to field [f]. *)
Definition covers (n : Z) (f : HField) : bool :=
  (field_start f <=? n) && (n <? field_end f).

(** No bit of the header belongs to two listed fields. *)
Definition unique_cover (l : list (string * HField)) : Prop :=
  forall n kv1 kv2, In kv1 l -> In kv2 l ->
    covers n (snd kv1) = true -> covers n (snd kv2) = true -> kv1 = kv2.

Module Overlap.
(** Two 16-bit fields sharing the second of three header bytes. *)
Definition overlapping_layout : list (string * HField) :=
  [("a"%string, mkHField 0 0 16); ("b"%string, mkHField 1 0 16)].
(** The signals of a sink that carries the two fields. *)
Definition sink_signals : list string :=
  ["data"%string; "error"%string; "a"%string; "b"%string].
End Overlap.

Module Wide.
(** One 16-bit field fed by a 24-bit parameter. *)
Definition layout : list (string * HField) := [("x"%string, mkHField 0 0 16)].
Definition meta (k : string) : Signal := mkSig 24 0xAABBCC.
End Wide.

(** ** Frames and reachable systems *)

(** The end flag is raised on the last word of [q] and on no earlier one. *)
Fixpoint ends_at_last (q : list Word) : bool :=
  match q with
  | [] => false
  | [w] => w_eop w
  | w :: q' => negb (w_eop w) && ends_at_last q'
  end.

(** One frame: the start flag on its first word, the end flag on its last
    word only; data, error flags and parameters are free. *)
Definition well_framed (q : list Word) : bool :=
  match q with
  | [] => false
  | w :: _ => w_sop w && ends_at_last q
  end.

(** Words that do not open a frame. *)
Definition no_start (q : list Word) : bool := forallb (fun w => negb (w_sop w)) q.

(** The registers hold values of their declared widths: [header_reg] is a
    signal of [header_length*8] bits, [counter.value] stays below the
    [max] the counter was built with. *)
Definition regs_in_range (p : Packetizer) (r : Regs) : Prop :=
  0 <= header_reg r < 2 ^ (p_header_length p * 8) /\
  0 <= counter_value r <= p_header_words p - 1.

(** The pending words end a frame, or nothing is pending and the machine
    is idle. *)
Definition closes (s : System) : Prop :=
  match snd s with
  | [] => state (fst s) = IDLE
  | w :: q => w_eop (last q w) = true
  end.

(** * The Coreblocks CPU wrapper

    [litex/soc/cores/cpu/coreblocks/core.py]: the tables of variants, the
    interrupt wiring, and the methods that record the reset address and
    run the external generator.  Exceptions are values, the effects on the
    platform, on the standard output and on the generator are kept in an
    explicit world. *)

Module Coreblocks.

Local Open Scope string_scope.

Inductive exn :=
| KeyError (key : string)
| AssertionError
| OSError (msg : string).

(** [d.get(k)] on a dict given by its items. *)
Definition get {A} (d : list (string * A)) (k : string) : option A :=
  match find (fun kv => String.eqb (fst kv) k) d with
  | Some kv => Some (snd kv)
  | None => None
  end.

(** [d[k]]: a [KeyError] when the key is missing. *)
Definition getitem {A} (d : list (string * A)) (k : string) : exn + A :=
  match get d k with
  | Some v => inr v
  | None => inl (KeyError k)
  end.

Definition CPU_VARIANTS : list (string * string) :=
  [("minimal", "tiny"); ("standard", "basic"); ("full", "full")].

Definition GCC_FLAGS : list (string * string) :=
    [("minimal", "-march=rv32e2p1                      -mabi=ilp32 ");
     ("standard", "-march=rv32i2p1_mazicsr_zifencei      -mabi=ilp32 ");
     ("full", "-march=rv32i2p1_maczicsr_zifencei   -mabi=ilp32 ")].

(** The attributes of a [Coreblocks] object the methods below read or
    write; [reset_address] does not exist until [set_reset_address]
    creates it. *)
Record Cpu := mkCpu {
  variant : string;
  human_name : string;
  reset_address : option Z
}.

(** [__init__(self, platform, variant)]: the only statement that can
    raise is the lookup [CPU_VARIANTS[variant]] of the human name. *)
Definition init (variant : string) : exn + Cpu :=
  match getitem CPU_VARIANTS variant with
  | inl e => inl e
  | inr config => inr (mkCpu variant ("Coreblocks-" ++ config) None)
  end.

(** The default of the [variant] argument. *)
Definition init_default : exn + Cpu := init "standard".

(** The property [gcc_flags]. *)
Definition gcc_flags (self : Cpu) : exn + string :=
  match getitem GCC_FLAGS (variant self) with
  | inl e => inl e
  | inr flags => inr (flags ++ "-D__coreblocks__ ")
  end.

(** [self.interrupts_full.eq(self.interrupt << 16)]: a signal of 16 bits
    shifted into a signal of 32 bits. *)
Definition interrupts_full (interrupt : Signal) : Signal :=
  drive 32 (Z.shiftl (val interrupt) 16).

(** [set_reset_address]: the attribute is written first, the assertion
    comes after. *)
Definition set_reset_address (self : Cpu) (address : Z) : option exn * Cpu :=
  let self' := mkCpu (variant self) (human_name self) (Some address) in
  (if (address =? 0)%Z then None else Some AssertionError, self').

(** [os.path.join] of POSIX. *)
Definition starts_with_sep (s : string) : bool := String.prefix "/" s.

Fixpoint ends_with_sep (s : string) : bool :=
  match s with
  | EmptyString => false
  | String c EmptyString => Ascii.eqb c "/"%char
  | String _ s' => ends_with_sep s'
  end.

Definition join2 (path b : string) : string :=
  if starts_with_sep b then b
  else if (String.eqb path "" || ends_with_sep path)%bool then path ++ b
  else path ++ "/" ++ b.

Definition path_join (a : string) (p : list string) : string := fold_left join2 p a.

(** What the methods act upon outside the object: the sources added to
    the platform, the commands run, the lines printed. *)
Record World := mkWorld {
  sources : list string;
  commands : list (list string);
  printed : list (list string)
}.

(** What the surroundings decide: the output directory of the platform
    when the design is finalized, where the data module lives, and the
    exit status of a command. *)
Record Env := mkEnv {
  platform_output_dir : string;
  data_location : string;
  exit_status : list string -> Z
}.

(** ["<prefix>{}".format(x)] for a string [x]. *)
Definition format (prefix x : string) : string := prefix ++ x.

(** [elaborate(variant, reset_address, verilog_filename)] *)
Definition elaborate (env : Env) (variant : string) (reset_address : Z)
    (verilog_filename : string) (w : World) : option exn * World :=
  let cli_params := [] in
  let cli_params := (cli_params ++ [format "--output=" verilog_filename])%list in
  match getitem CPU_VARIANTS variant with
  | inl e => (Some e, w)
  | inr config =>
      let cli_params := (cli_params ++ [format "--config=" config])%list in
      let cli_params := (cli_params ++ ["--soc"])%list in
      let sdir := data_location env in
      let argv := (["python3"; path_join sdir ["scripts"; "gen_verilog.py"]]
                   ++ cli_params)%list in
      let w := mkWorld (sources w) (commands w ++ [argv])%list (printed w) in
      if (exit_status env argv =? 0)%Z then (None, w)
      else
        (Some (OSError "Unable to elaborate Coreblocks CPU, please check your Amaranth/Yosys install"),
         mkWorld (sources w) (commands w) (printed w ++ [argv])%list)
  end.

(** [do_finalize(self)] *)
Definition do_finalize (env : Env) (self : Cpu) (w : World) : option exn * World :=
  match reset_address self with
  | None => (Some AssertionError, w)
  | Some address =>
      let verilog_filename :=
        path_join (platform_output_dir env) ["gateware"; "core.v"] in
      match elaborate env (variant self) address verilog_filename w with
      | (Some e, w) => (Some e, w)
      | (None, w) =>
          (None, mkWorld (sources w ++ [verilog_filename])%list (commands w) (printed w))
      end
  end.

End Coreblocks.

(** Closes [true = (a <? b)], [false = (a <? b)] and the like for [=?],
    from the arithmetic of the context. *)
Ltac by_cmp :=
  symmetry;
  first [ apply Z.ltb_lt; lia | apply Z.ltb_ge; lia
        | apply Z.eqb_eq; lia | apply Z.eqb_neq; lia
        | apply Z.ltb_lt; nia | apply Z.ltb_ge; nia ].

(** * Properties *)

(** ** Bit-level facts about slices *)

Lemma wordn_bit dw x i n :
  0 <= dw -> 0 <= i -> 0 <= n ->
  Z.testbit (wordn dw x i) n = Z.testbit x (n + i * dw) && (n <? dw).
Proof.
  intros Hdw Hi Hn. unfold wordn.
  rewrite Z.land_spec, Z.shiftr_spec, Z.testbit_ones_nonneg by lia.
  reflexivity.
Qed.

Lemma slice_index_in len i : 0 <= i <= len -> slice_index len i = i.
Proof. intros H. unfold slice_index. destruct (Z.ltb_spec i 0); lia. Qed.

Lemma slice_wordn len x dw i :
  0 < dw -> 0 <= i -> (i + 1) * dw <= len ->
  val (slice (mkSig len x) (i * dw) ((i + 1) * dw)) = wordn dw x i.
Proof.
  intros Hdw Hi Hle. unfold slice; cbn [flen val].
  rewrite !slice_index_in by nia.
  replace (Z.max 0 ((i + 1) * dw - i * dw)) with dw by nia.
  reflexivity.
Qed.

Lemma slice_second_word len x dw :
  0 < dw -> 2 * dw <= len ->
  val (slice (mkSig len x) dw (2 * dw)) = wordn dw x 1.
Proof.
  intros Hdw Hle. pose proof (slice_wordn len x dw 1 Hdw ltac:(lia) ltac:(lia)) as H.
  replace (1 * dw) with dw in H by lia.
  replace ((1 + 1) * dw) with (2 * dw) in H by lia.
  exact H.
Qed.

Lemma wordn_drive len x dw i :
  0 < dw -> 0 <= i -> (i + 1) * dw <= len ->
  wordn dw (val (drive len x)) i = wordn dw x i.
Proof.
  intros Hdw Hi Hle. apply Z.bits_inj'; intros n Hn.
  rewrite !wordn_bit by lia. unfold drive; cbn [val].
  rewrite Z.land_spec, Z.testbit_ones_nonneg by nia.
  destruct (Z.ltb_spec n dw); [|now rewrite !andb_false_r].
  replace (n + i * dw <? Z.max 0 len) with true by by_cmp.
  now rewrite andb_true_r.
Qed.

Lemma wordn_shifted len hr dw j :
  0 < dw -> 0 <= j -> (j + 2) * dw <= len ->
  wordn dw (val (drive len (val (Cat [slice_from (mkSig len hr) dw; mkSig dw 0])))) j
  = wordn dw hr (j + 1).
Proof.
  intros Hdw Hj Hle. rewrite wordn_drive by nia.
  apply Z.bits_inj'; intros n Hn.
  rewrite !wordn_bit by lia.
  destruct (Z.ltb_spec n dw); [|now rewrite !andb_false_r].
  rewrite !andb_true_r.
  unfold Cat, slice_from, slice; cbn [fold_right flen val].
  rewrite !slice_index_in by nia.
  rewrite Z.shiftl_0_l, Z.lor_0_l, Z.shiftl_0_l, Z.lor_0_r.
  rewrite Z.land_spec, Z.shiftr_spec, Z.testbit_ones_nonneg by nia.
  replace (n + j * dw <? Z.max 0 (len - dw)) with true by by_cmp.
  rewrite andb_true_r. f_equal. lia.
Qed.

Lemma bits_for_bound n : 0 <= n -> n < 2 ^ bits_for n.
Proof.
  intros H. unfold bits_for.
  destruct (Z.eq_dec n 0) as [->|]; [reflexivity|].
  apply Z.log2_spec. lia.
Qed.

Lemma flen_run_assigns len r : flen (run_assigns len r) = len.
Proof.
  unfold run_assigns.
  assert (H : forall s, flen (fold_left apply_assign r s) = flen s).
  { induction r as [|a r IH]; intros s; cbn [fold_left]; [reflexivity|].
    rewrite IH. reflexivity. }
  apply H.
Qed.

(** ** One tick preserves the invariant and the expected output *)

Section TickFacts.

Variable p : Packetizer.
Hypothesis Hvalid : valid_config p.

Lemma header_bits_words : p_header_length p * 8 = p_header_words p * p_dw p.
Proof.
  destruct Hvalid as (Hdw & Hmod & Hlen & Hw).
  rewrite Hlen. pose proof (Z.div_mod (p_dw p) 8 ltac:(lia)). nia.
Qed.

Lemma first_word_slice sink :
  val (slice (header p sink) 0 (p_dw p)) = wordn (p_dw p) (val (header p sink)) 0.
Proof.
  destruct Hvalid as (Hdw & Hmod & Hlen & Hw).
  pose proof header_bits_words as Hb.
  pose proof (slice_wordn (p_header_length p * 8) (val (header p sink)) (p_dw p) 0) as H.
  rewrite Z.mul_0_l, Z.add_0_l, Z.mul_1_l in H.
  rewrite <- H by nia. f_equal.
  destruct (header p sink) as [l v] eqn:E.
  assert (l = p_header_length p * 8) as ->; [|reflexivity].
  change l with (flen (mkSig l v)). rewrite <- E. apply flen_run_assigns.
Qed.

Lemma seq_cons_S a n : (0 < n)%nat -> seq a n = a :: seq (S a) (n - 1).
Proof. destruct n; [lia|]. intros _. cbn. now rewrite Nat.sub_0_r. Qed.

Lemma tick_spec s valid ready :
  inv p s ->
  inv p (fst (tick p s valid ready)) /\
  remaining p s
  = match snd (tick p s valid ready) with Some x => [x] | None => [] end
    ++ remaining p (fst (tick p s valid ready)).
Proof.
  destruct Hvalid as (Hdw & Hmod & Hlen & Hw).
  pose proof header_bits_words as Hb.
  destruct s as [[st hr c] q]. unfold inv, remaining, tick, step, comb.
  cbn [fst snd state header_reg counter_value].
  destruct st.
  - (* IDLE *)
    destruct q as [|w q]; [cbn; auto|].
    destruct valid; [|cbn; auto].
    cbn [present act_IDLE sink_stb sink_sop andb].
    destruct (w_sop w) eqn:Hsop; [|cbn; rewrite Hsop; auto].
    destruct ready; [|cbn; rewrite Hsop; auto].
    cbn -[header slice drive wordn hword Z.mul Z.sub].
    rewrite Hsop. split.
    + split; [lia|]. intros j Hj1 Hj2.
      rewrite Hb, wordn_drive by nia. reflexivity.
    + unfold header_words.
      rewrite (seq_cons_S 0) by lia. cbn [map app].
      rewrite Nat.sub_0_r. f_equal.
      unfold emitted_word, hword; cbn [source_data source_sop source_eop source_error].
      rewrite first_word_slice.
      replace (Z.of_nat 0 =? p_header_words p - 1) with false by by_cmp.
      rewrite andb_false_r. reflexivity.
  - (* SEND_HEADER *)
    destruct q as [|w q]; [intros []|].
    intros [Hc Hreg].
    assert (Hsink : forall v, sink_eop (present v (w :: q)) = w_eop w) by reflexivity.
    destruct ready.
    2:{ destruct valid; cbn; auto. }
    assert (Hq : (if sink_stb (present valid (w :: q)) &&
                     sink_ack (act_SEND_HEADER p (mkRegs SEND_HEADER hr c)
                                 (present valid (w :: q)) true)
                  then tl (w :: q) else w :: q) = w :: q).
    { cbn. now rewrite andb_false_r. }
    rewrite Hq. clear Hq.
    cbn [act_SEND_HEADER source_stb andb sync next_state counter_value
         header_reg counter_reset counter_ce load shift header_reg_sync
         counter_sync fst snd state].
    assert (Hem : emitted_word (act_SEND_HEADER p (mkRegs SEND_HEADER hr c)
                                  (present valid (w :: q)) true)
                  = hword p w (S (Z.to_nat c))).
    { unfold emitted_word, hword, act_SEND_HEADER.
      cbn [source_data source_sop source_eop source_error counter_value header_reg].
      rewrite Hsink.
      rewrite Hb, slice_second_word by nia.
      rewrite Hreg by lia.
      replace (Z.of_nat (S (Z.to_nat c))) with (c + 1) by lia.
      replace (c + 1 =? p_header_words p - 1) with (c =? p_header_words p - 2)
        by (destruct (Z.eqb_spec c (p_header_words p - 2));
            symmetry; [apply Z.eqb_eq|apply Z.eqb_neq]; lia).
      reflexivity. }
    rewrite Hem.
    destruct (Z.eqb_spec c (p_header_words p - 2)) as [Hlast|Hnot].
    + cbn [state fst snd]. split; [exact I|].
      replace (Z.to_nat (p_header_words p) - 1 - Z.to_nat c)%nat with 1%nat by lia.
      reflexivity.
    + cbn [state fst snd counter_value header_reg].
      assert (Hc' : (c + 1) mod 2 ^ counter_bits (p_header_words p) = c + 1).
      { apply Z.mod_small. unfold counter_bits.
        pose proof (bits_for_bound (p_header_words p - 1) ltac:(lia)). lia. }
      rewrite Hc'. split.
      * split; [lia|]. intros j Hj1 Hj2.
        rewrite Hb, wordn_shifted by nia.
        rewrite Hreg by lia. f_equal. lia.
      * rewrite (seq_cons_S (S (Z.to_nat c))) by lia. cbn [map app].
        replace (Z.to_nat (c + 1)) with (S (Z.to_nat c)) by lia.
        replace (Z.to_nat (p_header_words p) - 1 - S (Z.to_nat c))%nat
          with (Z.to_nat (p_header_words p) - 1 - Z.to_nat c - 1)%nat by lia.
        reflexivity.
  - (* COPY *)
    intros _.
    destruct q as [|w q]; [cbn; auto|].
    destruct valid; [|cbn; auto].
    destruct ready; [|cbn; auto].
    cbn. unfold fwd, emitted_word. destruct (w_eop w); cbn; auto.
Qed.

End TickFacts.

(** ** Runs *)

Section RunFacts.

Variable p : Packetizer.
Hypothesis Hvalid : valid_config p.

Lemma run_cons valid ready sched s :
  run p ((valid, ready) :: sched) s
  = (final p sched (fst (tick p s valid ready)),
     match snd (tick p s valid ready) with Some w => [w] | None => [] end
     ++ emitted p sched (fst (tick p s valid ready)),
     state (fst s) :: states p sched (fst (tick p s valid ready))).
Proof.
  unfold final, emitted, states. cbn [run].
  destruct (tick p s valid ready) as [s1 o]. cbn [fst snd].
  destruct (run p sched s1) as [[s2 out] sts]. cbn [fst snd].
  destruct o; reflexivity.
Qed.

Lemma run_spec sched : forall s,
  inv p s ->
  inv p (final p sched s) /\
  remaining p s = emitted p sched s ++ remaining p (final p sched s).
Proof.
  induction sched as [|[valid ready] sched IH]; intros s Hs.
  - split; [exact Hs|reflexivity].
  - destruct (tick_spec p Hvalid s valid ready Hs) as [Hinv Hrem].
    destruct (IH _ Hinv) as [Hinv' Hrem'].
    unfold final, emitted in *. rewrite run_cons. cbn [fst snd].
    split; [exact Hinv'|].
    rewrite Hrem. unfold final, emitted. rewrite Hrem', app_assoc. reflexivity.
Qed.

Lemma remaining_drained s : inv p s -> snd s = [] -> remaining p s = [].
Proof.
  destruct s as [[st hr c] q]. unfold inv, remaining. cbn [fst snd state].
  intros Hs ->. destruct st; [reflexivity|destruct Hs|reflexivity].
Qed.

Lemma emitted_drained sched s :
  inv p s -> snd (final p sched s) = [] -> emitted p sched s = remaining p s.
Proof.
  intros Hs Hq. destruct (run_spec sched s Hs) as [Hinv Hrem].
  rewrite Hrem, (remaining_drained _ Hinv Hq), app_nil_r. reflexivity.
Qed.

Lemma tick_queue s valid ready :
  snd (fst (tick p s valid ready)) = snd s \/
  snd (fst (tick p s valid ready)) = tl (snd s).
Proof.
  unfold tick. cbn [fst snd].
  destruct (sink_stb _ && sink_ack _); auto.
Qed.

Lemma tick_progress s :
  snd s <> [] ->
  snd (tick p s true true) <> None \/
  snd (fst (tick p s true true)) = tl (snd s).
Proof.
  destruct s as [[st hr c] [|w q]]; [intros H; now elim H|intros _].
  unfold tick, step, comb. cbn [fst snd state present].
  destruct st.
  - unfold act_IDLE. cbn [sink_stb sink_sop andb].
    destruct (w_sop w); cbn; [left; discriminate|right; reflexivity].
  - left. cbn. discriminate.
  - left. cbn. discriminate.
Qed.

Lemma backlog_tick s valid ready :
  inv p s ->
  (backlog p (fst (tick p s valid ready)) <= backlog p s)%nat /\
  (valid = true -> ready = true -> snd s <> [] ->
   backlog p (fst (tick p s valid ready)) < backlog p s)%nat.
Proof.
  intros Hs. destruct (tick_spec p Hvalid s valid ready Hs) as [_ Hrem].
  unfold backlog. rewrite Hrem, length_app.
  pose proof (tick_queue s valid ready) as Hq.
  pose proof (tick_progress s) as Hp.
  destruct (tick p s valid ready) as [s' o] eqn:Ht. cbn [fst snd] in *.
  assert (Hlen : (length (snd s') <= length (snd s))%nat).
  { destruct Hq as [-> | ->]; [lia|]. destruct (snd s); cbn; lia. }
  split; [lia|].
  intros -> -> Hne. rewrite Ht in Hp. cbn [fst snd] in Hp.
  destruct (Hp Hne) as [Ho | Hq'].
  - destruct o; [cbn [length]; lia|now elim Ho].
  - rewrite Hq'. destruct (snd s); [now elim Hne|cbn [length tl]; lia].
Qed.

Lemma run_drains sched : forall s,
  inv p s -> (backlog p s <= productive sched)%nat ->
  snd (final p sched s) = [].
Proof.
  induction sched as [|[valid ready] sched IH]; intros s Hs Hb.
  - cbn in Hb. unfold backlog in Hb. cbn.
    destruct (snd s); [reflexivity|cbn in Hb; lia].
  - unfold final. rewrite run_cons. cbn [fst].
    destruct (tick_spec p Hvalid s valid ready Hs) as [Hinv _].
    apply IH; [exact Hinv|].
    destruct (backlog_tick s valid ready Hs) as [Hle Hlt].
    cbn [productive] in Hb.
    destruct valid, ready; cbn [andb] in Hb; try lia.
    destruct (snd s) eqn:Hq.
    + pose proof (remaining_drained s Hs Hq) as Hr.
      assert (backlog p s = 0%nat) as H0
        by (unfold backlog; rewrite Hq, Hr; reflexivity).
      lia.
    + specialize (Hlt eq_refl eq_refl ltac:(discriminate)). lia.
Qed.

Lemma inv_reset q : inv p (reset_regs, q).
Proof. exact I. Qed.

Lemma productive_always_ready n : productive (always_ready n) = n.
Proof. induction n; cbn; [reflexivity|]. unfold always_ready in IHn. now rewrite IHn. Qed.

Lemma productive_every_other n : productive (every_other n) = n.
Proof. induction n; cbn; [reflexivity|]. now rewrite IHn. Qed.

Lemma productive_ready_after idle n : productive (ready_after idle n) = n.
Proof.
  unfold ready_after. induction idle; cbn; [apply productive_always_ready|exact IHidle].
Qed.

End RunFacts.

(** ** Construction *)

Lemma init_some sink_signals dw header_type header_length p :
  LiteEthPacketizer_init sink_signals dw header_type header_length = inr p ->
  dw / 8 <> 0 /\
  p = mkPacketizer dw header_type header_length (header_length / (dw / 8)).
Proof.
  unfold LiteEthPacketizer_init, py_floordiv.
  destruct (Z.eqb_spec (dw / 8) 0); [discriminate|].
  destruct (Counter_init _); [discriminate|].
  destruct (find _ _); [discriminate|].
  intros [= <-]. auto.
Qed.

Lemma geometry_words dw header_length :
  valid_geometry dw header_length ->
  header_length / (dw / 8) = header_length * 8 / dw /\
  header_length = header_length / (dw / 8) * (dw / 8).
Proof.
  intros (Hdw & Hmod & Hmul & Hw).
  pose proof (Z.div_mod dw 8 ltac:(lia)) as Hd. rewrite Hmod, Z.add_0_r in Hd.
  assert (0 < dw / 8) as Hk by lia.
  assert (header_length * 8 / dw = header_length / (dw / 8)) as E.
  { rewrite Hd at 1. rewrite Z.mul_comm, Z.div_mul_cancel_l by lia. reflexivity. }
  split; [auto|].
  pose proof (Z.div_mod (header_length * 8) dw ltac:(lia)) as Hh.
  rewrite Hmul, Z.add_0_r, E in Hh. nia.
Qed.

Lemma init_valid sink_signals dw header_type header_length p :
  LiteEthPacketizer_init sink_signals dw header_type header_length = inr p ->
  valid_geometry dw header_length ->
  valid_config p /\
  p = mkPacketizer dw header_type header_length (header_length * 8 / dw).
Proof.
  intros Hp Hg. apply init_some in Hp as [_ ->].
  destruct (geometry_words _ _ Hg) as [E Hl].
  destruct Hg as (Hdw & Hmod & Hmul & Hw).
  split; [|now rewrite E].
  unfold valid_config; cbn. repeat split; auto; lia.
Qed.

Lemma insert_item_perm x l : Permutation (insert_item x l) (x :: l).
Proof.
  induction l as [|y l IH]; cbn; [reflexivity|].
  destruct (String.leb (fst x) (fst y)); [reflexivity|].
  rewrite IH. apply perm_swap.
Qed.

Lemma sorted_items_perm l : Permutation (sorted_items l) l.
Proof.
  induction l as [|x l IH]; cbn; [reflexivity|].
  rewrite insert_item_perm. now constructor.
Qed.

Lemma find_missing_none sink_signals (l : list (string * HField)) :
  (forall k, In k (map fst l) -> In k sink_signals) ->
  find (fun kv => negb (has_attr sink_signals (fst kv))) l = None.
Proof.
  intros H. destruct (find _ l) as [kv|] eqn:F; [|reflexivity].
  apply find_some in F as [Hin Hk]. apply negb_true_iff in Hk.
  assert (has_attr sink_signals (fst kv) = true); [|congruence].
  unfold has_attr. apply existsb_exists. exists (fst kv).
  split; [apply H; now apply in_map|apply String.eqb_refl].
Qed.

Lemma find_missing_some sink_signals (l : list (string * HField)) kv :
  find (fun kv => negb (has_attr sink_signals (fst kv))) l = Some kv ->
  In kv l /\ ~ In (fst kv) sink_signals.
Proof.
  intros F. apply find_some in F as [Hin Hk]. split; [exact Hin|].
  intros Hs. apply negb_true_iff in Hk.
  assert (has_attr sink_signals (fst kv) = true); [|congruence].
  unfold has_attr. apply existsb_exists. exists (fst kv).
  split; [exact Hs|apply String.eqb_refl].
Qed.

(** C2 (as stated, refuted): a layout whose two fields overlap, and no
    longer cover the header exactly, is invalid in the specification's
    sense, yet the constructor accepts it. *)
Lemma overlapping_layout_accepted :
  invalid_configuration 8 Overlap.overlapping_layout 3 = true /\
  LiteEthPacketizer_init Overlap.sink_signals 8 Overlap.overlapping_layout 3
  = inr (mkPacketizer 8 Overlap.overlapping_layout 3 3).
Proof. split; reflexivity. Qed.

(** C2 (amended): construction rejects a header of fewer than two words
    and nothing else about the layout.  It fails whenever
    [header_length // (dw // 8)], which for [dw] a multiple of 8 is
    [header_length*8 / dw], is below 2, or [dw] is below 8: for a positive
    header length, with an assertion of the counter in the first case and
    a division by zero in the second.  Otherwise it fails only when the
    sink has no signal named like one of the fields; when it has them
    all, construction succeeds whatever the positions and widths of the
    fields are, overlapping or not, covering the header or not, and
    whether or not [header_length * 8] is a multiple of [dw]. *)
Theorem construction_outcome sink_signals dw header_type header_length :
  (0 < dw -> dw mod 8 = 0 ->
   header_length / (dw / 8) = header_length * 8 / dw) /\
  (0 <= dw -> dw < 8 \/ header_length / (dw / 8) < 2 ->
   exists e,
     LiteEthPacketizer_init sink_signals dw header_type header_length = inl e) /\
  (0 <= dw < 8 -> 0 < header_length ->
   LiteEthPacketizer_init sink_signals dw header_type header_length
   = inl ZeroDivisionError) /\
  (8 <= dw -> 0 < header_length -> header_length / (dw / 8) < 2 ->
   LiteEthPacketizer_init sink_signals dw header_type header_length
   = inl AssertionError) /\
  (8 <= dw -> 2 <= header_length / (dw / 8) ->
   (forall k, In k (map fst header_type) -> In k sink_signals) ->
   LiteEthPacketizer_init sink_signals dw header_type header_length
   = inr (mkPacketizer dw header_type header_length (header_length / (dw / 8)))) /\
  (8 <= dw -> 2 <= header_length / (dw / 8) ->
   ~ (forall k, In k (map fst header_type) -> In k sink_signals) ->
   exists k, In k (map fst header_type) /\ ~ In k sink_signals /\
             LiteEthPacketizer_init sink_signals dw header_type header_length
             = inl (AttributeError k)).
Proof.
  assert (Hdiv : 8 <= dw -> dw / 8 <> 0).
  { intros H. assert (1 <= dw / 8) by (apply Z.div_le_lower_bound; lia). lia. }
  assert (Hsmall : 0 <= dw < 8 ->
            LiteEthPacketizer_init sink_signals dw header_type header_length
            = inl ZeroDivisionError).
  { intros Hdw. unfold LiteEthPacketizer_init, py_floordiv.
    rewrite Z.div_small by lia. reflexivity. }
  assert (Hshort : 8 <= dw -> header_length / (dw / 8) < 2 ->
            LiteEthPacketizer_init sink_signals dw header_type header_length
            = inl AssertionError).
  { intros Hdw Hw. unfold LiteEthPacketizer_init, py_floordiv, Counter_init.
    destruct (Z.eqb_spec (dw / 8) 0); [now elim Hdiv|].
    replace (0 <? header_length / (dw / 8) - 1) with false by by_cmp.
    reflexivity. }
  split; [|split; [|split; [|split; [|split]]]].
  - intros Hdw Hmod.
    pose proof (Z.div_mod dw 8 ltac:(lia)) as Hd. rewrite Hmod, Z.add_0_r in Hd.
    rewrite Hd at 2. rewrite Z.mul_comm, Z.div_mul_cancel_l by lia. reflexivity.
  - intros Hdw H. destruct (Z.lt_ge_cases dw 8) as [Hlt|Hge].
    + eexists. apply Hsmall. lia.
    + destruct H as [H|H]; [lia|]. eexists. now apply Hshort.
  - intros Hdw _. now apply Hsmall.
  - intros Hdw _ Hw. now apply Hshort.
  - intros Hdw Hw Hall. unfold LiteEthPacketizer_init, py_floordiv, Counter_init.
    destruct (Z.eqb_spec (dw / 8) 0); [now elim Hdiv|].
    replace (0 <? header_length / (dw / 8) - 1) with true by by_cmp.
    rewrite find_missing_none; [reflexivity|].
    intros k Hk. apply Hall.
    apply (Permutation_in _ (Permutation_map fst (sorted_items_perm header_type))).
    exact Hk.
  - intros Hdw Hw Hnot. unfold LiteEthPacketizer_init, py_floordiv, Counter_init.
    destruct (Z.eqb_spec (dw / 8) 0); [now elim Hdiv|].
    replace (0 <? header_length / (dw / 8) - 1) with true by by_cmp.
    destruct (find _ (sorted_items header_type)) as [kv|] eqn:F.
    + apply find_missing_some in F as [Hin Hk]. exists (fst kv).
      split; [|split; [exact Hk|reflexivity]].
      apply (Permutation_in _ (Permutation_map fst (sorted_items_perm header_type))).
      now apply in_map.
    + elim Hnot. intros k Hk.
      apply (Permutation_in _ (Permutation_sym
               (Permutation_map fst (sorted_items_perm header_type)))) in Hk.
      apply in_map_iff in Hk as (kv & <- & Hin).
      pose proof (find_none _ _ F _ Hin) as Hn. cbn in Hn.
      apply negb_false_iff in Hn. unfold has_attr in Hn.
      apply existsb_exists in Hn as (x & Hx & E).
      apply String.eqb_eq in E. now subst x.
Qed.

(** ** The three states, one tick at a time *)

(** C5: in [SEND_HEADER] a word is always offered downstream, and its
    end flag is [sink.eop & (counter == header_words - 2)], where
    [header_words] is the constant [header_length // (dw // 8)]: the end
    of frame is raised on a header word exactly when the pending upstream
    word is the last of its frame and the header is at its final word. *)
Theorem send_header_end_condition sink_signals dw header_type header_length p r sink ack :
  LiteEthPacketizer_init sink_signals dw header_type header_length = inr p ->
  state r = SEND_HEADER ->
  source_stb (comb p r sink ack) = true /\
  source_sop (comb p r sink ack) = false /\
  source_eop (comb p r sink ack)
  = sink_eop sink && (counter_value r =? header_length / (dw / 8) - 2) /\
  (source_eop (comb p r sink ack) = true <->
   sink_eop sink = true /\ counter_value r = header_length / (dw / 8) - 2).
Proof.
  intros Hp Hst. apply init_some in Hp as [_ ->].
  unfold comb. rewrite Hst. cbn.
  split; [reflexivity|]. split; [reflexivity|]. split; [reflexivity|].
  rewrite andb_true_iff, Z.eqb_eq. reflexivity.
Qed.

Lemma send_header_end_condition_witness :
  LiteEthPacketizer_init Example3.sink_signals 8 Example3.layout 3 = inr Example3.pk /\
  state (mkRegs SEND_HEADER 0x3412 1) = SEND_HEADER /\
  source_eop (comb Example3.pk (mkRegs SEND_HEADER 0x3412 1)
                (present true (frame Example3.meta [0xCC])) true) = true.
Proof.
  split; [reflexivity|]. split; [reflexivity|].
  apply (send_header_end_condition Example3.sink_signals 8 Example3.layout 3 Example3.pk
           (mkRegs SEND_HEADER 0x3412 1)
           (present true (frame Example3.meta [0xCC])) true
           eq_refl eq_refl).
  split; reflexivity.
Defined.

(** C4 (as stated, refuted): one tick after reset the machine is in
    [SEND_HEADER]; on a tick where the upstream does not assert [stb] but
    the downstream is ready, the register is shifted and the counter
    advances all the same. *)
Lemma upstream_stall_does_not_hold_header :
  state (fst Example3.after_first_word) = SEND_HEADER /\
  sink_stb (present false (snd Example3.after_first_word)) = false /\
  header_reg (fst (step Example3.pk (fst Example3.after_first_word)
                     (present false (snd Example3.after_first_word)) true))
  <> header_reg (fst Example3.after_first_word) /\
  counter_value (fst (step Example3.pk (fst Example3.after_first_word)
                        (present false (snd Example3.after_first_word)) true))
  <> counter_value (fst Example3.after_first_word).
Proof. vm_compute. repeat split; discriminate. Qed.

(** C4 (amended): in [SEND_HEADER] the register and the counter follow
    the downstream handshake alone.  On a tick the downstream does not
    accept the offered header word, both keep their value; on a tick it
    accepts, the register loses its low word and the counter advances by
    one, whether or not the upstream asserts [stb]. *)
Theorem send_header_follows_downstream sink_signals dw header_type header_length p r sink ack :
  LiteEthPacketizer_init sink_signals dw header_type header_length = inr p ->
  valid_geometry dw header_length ->
  state r = SEND_HEADER ->
  0 <= counter_value r <= header_length * 8 / dw - 2 ->
  shift (comb p r sink ack) = ack /\
  counter_ce (comb p r sink ack) = ack /\
  load (comb p r sink ack) = false /\
  counter_reset (comb p r sink ack) = false /\
  header_reg (fst (step p r sink ack))
  = (if ack
     then Z.land (Z.shiftr (header_reg r) dw) (Z.ones (header_length * 8 - dw))
     else header_reg r) /\
  counter_value (fst (step p r sink ack))
  = (if ack then counter_value r + 1 else counter_value r).
Proof.
  intros Hp Hg Hst Hc. pose proof (geometry_words _ _ Hg) as [E Hl].
  apply init_some in Hp as [_ ->].
  destruct Hg as (Hdw & Hmod & Hmul & Hw).
  pose proof (Z.div_mod (header_length * 8) dw ltac:(lia)) as Hh.
  rewrite Hmul, Z.add_0_r in Hh.
  unfold step, sync, comb. rewrite Hst.
  cbn [fst act_SEND_HEADER shift counter_ce load counter_reset andb
       header_reg_sync counter_sync p_dw p_header_length p_header_words
       header_reg counter_value].
  repeat split.
  - destruct ack; [|reflexivity].
    unfold drive, Cat, slice_from, slice; cbn [fold_right flen val].
    rewrite !slice_index_in by nia.
    rewrite Z.shiftl_0_l, Z.lor_0_l, Z.shiftl_0_l, Z.lor_0_r.
    replace (Z.max 0 (header_length * 8 - dw)) with (header_length * 8 - dw) by nia.
    apply Z.bits_inj'; intros n Hn.
    rewrite !Z.land_spec, !Z.testbit_ones_nonneg by nia.
    destruct (Z.ltb_spec n (header_length * 8 - dw)).
    + replace (n <? Z.max 0 (header_length * 8)) with true by by_cmp.
      now rewrite andb_true_r.
    + now rewrite !andb_false_r.
  - destruct ack; [|reflexivity].
    apply Z.mod_small. unfold counter_bits. rewrite E.
    pose proof (bits_for_bound (header_length * 8 / dw - 1) ltac:(lia)). lia.
Qed.

Lemma send_header_follows_downstream_witness :
  LiteEthPacketizer_init Example3.sink_signals 8 Example3.layout 3 = inr Example3.pk /\
  valid_geometry 8 3 /\
  header_reg (fst (step Example3.pk (mkRegs SEND_HEADER 0x341207 0)
                     (present false (frame Example3.meta [0xAA; 0xBB])) true))
  = 0x3412 /\
  counter_value (fst (step Example3.pk (mkRegs SEND_HEADER 0x341207 0)
                        (present false (frame Example3.meta [0xAA; 0xBB])) false))
  = 0.
Proof.
  assert (Hg : valid_geometry 8 3).
  { unfold valid_geometry. repeat split; try reflexivity; vm_compute; discriminate. }
  split; [reflexivity|]. split; [exact Hg|].
  assert (Hc : 0 <= counter_value (mkRegs SEND_HEADER 0x341207 0) <= 3 * 8 / 8 - 2).
  { cbn [counter_value]. split; vm_compute; discriminate. }
  split.
  - apply (send_header_follows_downstream Example3.sink_signals 8 Example3.layout 3 Example3.pk
             (mkRegs SEND_HEADER 0x341207 0)
             (present false (frame Example3.meta [0xAA; 0xBB])) true
             eq_refl Hg eq_refl Hc).
  - apply (send_header_follows_downstream Example3.sink_signals 8 Example3.layout 3 Example3.pk
             (mkRegs SEND_HEADER 0x341207 0)
             (present false (frame Example3.meta [0xAA; 0xBB])) false
             eq_refl Hg eq_refl Hc).
Defined.

(** C7: in [COPY] the upstream word is forwarded as it is, with the start
    flag low: data, end and error flags are the upstream ones, and the
    word is offered exactly when the upstream offers one.  The upstream is
    acknowledged, and so advanced, exactly on an accepted transfer; the
    machine then returns to [IDLE] if the word carried the end flag and
    stays in [COPY] otherwise.  The error flag takes no part in any other
    signal nor in the next state. *)
Theorem copy_forwards_verbatim p r sink ack :
  state r = COPY ->
  let c := comb p r sink ack in
  source_stb c = sink_stb sink /\
  source_sop c = false /\
  source_data c = sink_data sink /\
  source_eop c = sink_eop sink /\
  source_error c = sink_error sink /\
  sink_ack c = source_stb c && ack /\
  state (fst (step p r sink ack))
  = (if source_stb c && ack then (if source_eop c then IDLE else COPY) else COPY) /\
  (forall q valid,
     fst (tick p (r, q) valid ack)
     = (fst (step p r (present valid q) ack),
        if source_stb (comb p r (present valid q) ack) && ack then tl q else q)) /\
  (forall e,
     let sink' := mkSinkIn (sink_stb sink) (sink_sop sink) (sink_eop sink)
                           (sink_data sink) e (sink_param sink) in
     state (fst (step p r sink' ack)) = state (fst (step p r sink ack)) /\
     sink_ack (comb p r sink' ack) = sink_ack c /\
     emitted_word (comb p r sink' ack)
     = mkOut (source_data c) (source_sop c) (source_eop c) e).
Proof.
  intros Hst. unfold step, sync, comb, tick. rewrite Hst.
  cbn -[present].
  repeat split.
  - destruct (sink_stb sink && ack), (sink_eop sink); reflexivity.
  - intros q valid. unfold step, sync, comb. rewrite Hst. cbn -[present].
    rewrite andb_assoc, andb_diag. reflexivity.
Qed.

Lemma copy_forwards_verbatim_witness :
  state (mkRegs COPY 0x34 2) = COPY /\
  emitted_word (comb Example3.pk (mkRegs COPY 0x34 2)
                  (present true (frame_from Example3.meta false [0xBB])) true)
  = mkOut 0xBB false true false /\
  state (fst (step Example3.pk (mkRegs COPY 0x34 2)
                (present true (frame_from Example3.meta false [0xBB])) true))
  = IDLE.
Proof.
  split; [reflexivity|].
  pose proof (copy_forwards_verbatim Example3.pk (mkRegs COPY 0x34 2)
                (present true (frame_from Example3.meta false [0xBB])) true eq_refl)
    as (H1 & H2 & H3 & H4 & H5 & H6 & H7 & _).
  split; [|exact H7]. reflexivity.
Defined.

(** C10: in [IDLE], a valid upstream word that does not carry the start
    flag is acknowledged on that very tick while nothing is offered
    downstream: the word leaves the upstream queue, no word is emitted,
    the machine stays in [IDLE], and the words expected on the output are
    those of the queue without it. *)
Theorem idle_discards_non_start p r w q ready :
  state r = IDLE -> w_sop w = false ->
  let c := comb p r (present true (w :: q)) ready in
  sink_ack c = true /\
  source_stb c = false /\
  tick p (r, w :: q) true ready = ((mkRegs IDLE (header_reg r) 0, q), None) /\
  expected p false (w :: q) = expected p false q.
Proof.
  intros Hst Hsop. unfold tick, step, sync, comb.
  cbn [fst snd present]. rewrite Hst. unfold act_IDLE.
  cbn [sink_stb sink_sop andb]. rewrite Hsop. cbn.
  rewrite Hsop. auto.
Qed.

Lemma idle_discards_non_start_witness :
  tick Example3.pk (reset_regs, frame_from Example3.meta false [0xAA; 0xBB]) true true
  = ((mkRegs IDLE 0 0, frame_from Example3.meta false [0xBB]), None).
Proof.
  apply (idle_discards_non_start Example3.pk reset_regs
           (mkWord false false 0xAA false Example3.meta)
           (frame_from Example3.meta false [0xBB]) true eq_refl eq_refl).
Defined.

(** ** Two short frames, tick by tick *)

Lemma example_config : valid_config Example3.pk.
Proof. unfold valid_config. cbn. repeat split; lia. Qed.

(** C6: eight-bit words, a three-byte header 07 12 34 and the payload
    AA BB: with both endpoints always willing, five words are emitted,
    07 with the start flag, 12, 34, AA, and BB with the end flag, while
    the machine goes through IDLE, SEND_HEADER, SEND_HEADER, COPY, COPY and
    is back in IDLE with nothing left upstream.  Whatever the schedule, a
    run that drains the upstream emits these five words. *)
Theorem short_frame_trace :
  LiteEthPacketizer_init Example3.sink_signals 8 Example3.layout 3 = inr Example3.pk /\
  header_bytes Example3.pk Example3.meta = [0x07; 0x12; 0x34] /\
  run Example3.pk (always_ready 5) (reset_regs, frame Example3.meta [0xAA; 0xBB])
  = ((mkRegs IDLE 0x34 2, []),
     [mkOut 0x07 true false false;
      mkOut 0x12 false false false;
      mkOut 0x34 false false false;
      mkOut 0xAA false false false;
      mkOut 0xBB false true false],
     [IDLE; SEND_HEADER; SEND_HEADER; COPY; COPY; IDLE]) /\
  (forall sched,
     snd (final Example3.pk sched (reset_regs, frame Example3.meta [0xAA; 0xBB])) = [] ->
     emitted Example3.pk sched (reset_regs, frame Example3.meta [0xAA; 0xBB])
     = [mkOut 0x07 true false false;
        mkOut 0x12 false false false;
        mkOut 0x34 false false false;
        mkOut 0xAA false false false;
        mkOut 0xBB false true false]).
Proof.
  split; [reflexivity|]. split; [reflexivity|]. split; [reflexivity|].
  intros sched Hdr.
  rewrite (emitted_drained Example3.pk example_config sched _ (inv_reset _ _) Hdr).
  reflexivity.
Qed.

(** C3 (as stated, refuted): with the one-byte payload CC, the word CC is
    not absorbed by the end flag of the last header word: it is forwarded
    downstream as a word of its own. *)
Lemma single_word_payload_is_forwarded :
  In (mkOut 0xCC false true false)
     (emitted Example3.pk (always_ready 4) (reset_regs, frame Example3.meta [0xCC])).
Proof. vm_compute. auto 10. Qed.

(** C3 (amended): eight-bit words, header 07 12 34, payload the single
    byte CC marked start and end.  The word is still pending during
    [SEND_HEADER]; the third emitted word, 34, carries the end flag, the
    machine goes to [COPY], and there CC is forwarded as a fourth word,
    with the end flag again, before the machine returns to [IDLE].
    Whatever the schedule, a run that drains the upstream emits these four
    words. *)
Theorem single_word_payload_trace :
  run Example3.pk (always_ready 4) (reset_regs, frame Example3.meta [0xCC])
  = ((mkRegs IDLE 0x34 2, []),
     [mkOut 0x07 true false false;
      mkOut 0x12 false false false;
      mkOut 0x34 false true false;
      mkOut 0xCC false true false],
     [IDLE; SEND_HEADER; SEND_HEADER; COPY; IDLE]) /\
  (forall sched,
     snd (final Example3.pk sched (reset_regs, frame Example3.meta [0xCC])) = [] ->
     emitted Example3.pk sched (reset_regs, frame Example3.meta [0xCC])
     = [mkOut 0x07 true false false;
        mkOut 0x12 false false false;
        mkOut 0x34 false true false;
        mkOut 0xCC false true false]).
Proof.
  split; [reflexivity|].
  intros sched Hdr.
  rewrite (emitted_drained Example3.pk example_config sched _ (inv_reset _ _) Hdr).
  reflexivity.
Qed.

(** ** Bytes of words *)

Lemma bytes_of_app a b x :
  bytes_of (a + b) x = bytes_of a x ++ bytes_of b (Z.shiftr x (8 * Z.of_nat a)).
Proof.
  revert x. induction a as [|a IH]; intros x.
  - cbn [Nat.add bytes_of app]. change (8 * Z.of_nat 0) with 0.
    now rewrite Z.shiftr_0_r.
  - cbn [Nat.add bytes_of app]. rewrite IH. do 3 f_equal.
    rewrite Z.shiftr_shiftr by lia. f_equal. lia.
Qed.

Lemma bytes_of_mask k x :
  bytes_of k (Z.land x (Z.ones (8 * Z.of_nat k))) = bytes_of k x.
Proof.
  revert x. induction k as [|k IH]; intros x; [reflexivity|].
  cbn [bytes_of]. f_equal.
  - apply Z.bits_inj'; intros n Hn.
    rewrite !Z.land_spec, !Z.testbit_ones_nonneg by lia.
    destruct (Z.ltb_spec n 8); [|now rewrite !andb_false_r].
    replace (n <? 8 * Z.of_nat (S k)) with true by by_cmp.
    now rewrite !andb_true_r.
  - rewrite <- (IH (Z.shiftr x 8)). f_equal.
    apply Z.bits_inj'; intros n Hn.
    rewrite Z.shiftr_spec, !Z.land_spec, Z.shiftr_spec,
            !Z.testbit_ones_nonneg by lia.
    f_equal. destruct (Z.ltb_spec n (8 * Z.of_nat k));
      [apply Z.ltb_lt|apply Z.ltb_ge]; lia.
Qed.

Lemma stream_bytes_words dw x m : forall s,
  0 < dw -> dw mod 8 = 0 ->
  stream_bytes dw (map (fun i => wordn dw x (Z.of_nat i)) (seq s m))
  = bytes_of (m * Z.to_nat (dw / 8)) (Z.shiftr x (Z.of_nat s * dw)).
Proof.
  intros s Hdw Hmod. revert s.
  pose proof (Z.div_mod dw 8 ltac:(lia)) as Hd. rewrite Hmod, Z.add_0_r in Hd.
  induction m as [|m IH]; intros s; [reflexivity|].
  unfold stream_bytes in *. cbn [seq map concat Nat.mul].
  rewrite IH, bytes_of_app. f_equal.
  - unfold word_bytes, wordn.
    replace dw with (8 * Z.of_nat (Z.to_nat (dw / 8))) at 3 by lia.
    apply bytes_of_mask.
  - rewrite Z.shiftr_shiftr by lia. do 2 f_equal. lia.
Qed.

(** ** The output expected for one frame *)

Section FrameFacts.

Variable p : Packetizer.
Variable obj : string -> Signal.

Lemma expected_copy_frame payload : forall first,
  payload <> [] ->
  expected p true (frame_from obj first payload)
  = map (fun d => mkOut d false false false) (removelast payload)
    ++ [mkOut (last payload 0) false true false].
Proof.
  induction payload as [|d rest IH]; intros first Hne; [now elim Hne|].
  destruct rest as [|d' rest]; [reflexivity|].
  change (frame_from obj first (d :: d' :: rest))
    with (mkWord first false d false obj :: frame_from obj false (d' :: rest)).
  cbn [expected w_eop negb]. rewrite IH by discriminate.
  reflexivity.
Qed.

Lemma frame_head payload :
  payload <> [] ->
  exists w q, frame obj payload = w :: q /\ w_sop w = true /\ w_param w = obj /\
              w_eop w = Nat.eqb (length payload) 1.
Proof.
  destruct payload as [|d [|d' rest]]; [intros H; now elim H| |]; intros _.
  - eexists _, _. repeat split.
  - eexists _, _. repeat split.
Qed.

Lemma expected_frame payload :
  payload <> [] ->
  expected p false (frame obj payload)
  = map (fun i => mkOut (wordn (p_dw p) (encoded_header p obj) (Z.of_nat i))
                        (Nat.eqb i 0)
                        (Nat.eqb (length payload) 1
                         && (Z.of_nat i =? p_header_words p - 1))
                        false)
        (seq 0 (Z.to_nat (p_header_words p)))
    ++ map (fun d => mkOut d false false false) (removelast payload)
    ++ [mkOut (last payload 0) false true false].
Proof.
  intros Hne. rewrite <- (expected_copy_frame payload true Hne).
  fold (frame obj payload).
  destruct (frame_head payload Hne) as (w & q & Hf & Hsop & Hpar & Heop).
  rewrite Hf. cbn [expected]. rewrite Hsop. f_equal.
  unfold header_words. apply map_ext; intros i.
  unfold hword, header_of, encoded_header, header. cbn [present sink_param].
  now rewrite Hpar, Heop.
Qed.

Lemma length_frame payload : forall first,
  length (frame_from obj first payload) = length payload.
Proof.
  induction payload as [|d rest IH]; intros first; [reflexivity|].
  destruct rest as [|d' rest]; [reflexivity|].
  change (frame_from obj first (d :: d' :: rest))
    with (mkWord first false d false obj :: frame_from obj false (d' :: rest)).
  cbn [length]. now rewrite IH.
Qed.

End FrameFacts.

Lemma map_constant {A B} (f : A -> B) (c : B) (l : list A) :
  (forall x, In x l -> f x = c) -> map f l = repeat c (length l).
Proof.
  induction l as [|a l IH]; intros H; [reflexivity|].
  cbn [map length repeat]. rewrite (H a) by now left.
  rewrite IH; [reflexivity|]. intros x Hx. apply H. now right.
Qed.

Lemma stream_bytes_app dw a b :
  stream_bytes dw (a ++ b) = stream_bytes dw a ++ stream_bytes dw b.
Proof. unfold stream_bytes. now rewrite map_app, concat_app. Qed.

(** ** Framing *)

(** C1 (as stated, refuted): a payload of one word is a payload of at
    least [W/8] bytes, and for it the end flag is not raised on the last
    emitted word only: the last header word carries it as well. *)
Lemma end_flag_on_last_header_word :
  length (emitted Example3.pk (always_ready 4)
            (reset_regs, frame Example3.meta [0xCC])) = 4%nat /\
  nth 2 (map o_eop (emitted Example3.pk (always_ready 4)
                      (reset_regs, frame Example3.meta [0xCC]))) false = true.
Proof. split; reflexivity. Qed.

(** C1 (amended): for a packetizer built for words of whole bytes and a
    header of two whole words or more, for any parameters and any
    non-empty payload presented as one frame (start on its first word,
    end on its last): every schedule with enough ticks on which both
    endpoints are willing drains the frame, and whenever a run has drained
    it, the emitted words, read as bytes, are the header bytes followed by
    the payload bytes; the start flag is raised on the first emitted word
    only; the end flag is raised on the last emitted word and, when the
    payload is a single word, also on the last header word, and on no
    other. *)
Theorem framing_correctness sink_signals dw header_type header_length p obj payload :
  LiteEthPacketizer_init sink_signals dw header_type header_length = inr p ->
  valid_geometry dw header_length ->
  payload <> [] ->
  let hw := Z.to_nat (header_length * 8 / dw) in
  let n := length payload in
  let s0 := (reset_regs, frame obj payload) in
  (forall sched, (hw + 2 * n <= productive sched)%nat ->
                 snd (final p sched s0) = []) /\
  (forall sched, snd (final p sched s0) = [] ->
     let out := emitted p sched s0 in
     stream_bytes dw (map o_data out)
     = header_bytes p obj ++ stream_bytes dw payload /\
     map o_sop out = true :: repeat false (hw + n - 1) /\
     map o_eop out
     = repeat false (hw - 1) ++ [Nat.eqb n 1] ++ repeat false (n - 1) ++ [true]).
Proof.
  intros Hp Hg Hne hw n s0.
  destruct (init_valid _ _ _ _ _ Hp Hg) as [Hv Ep].
  pose proof (geometry_words _ _ Hg) as [E Hl].
  assert (Hwords : p_header_words p = header_length * 8 / dw) by now rewrite Ep.
  assert (Hpdw : p_dw p = dw) by now rewrite Ep.
  assert (Hplen : p_header_length p = header_length) by now rewrite Ep.
  destruct Hg as (Hdw & Hmod & Hmul & Hw).
  assert (Hexp := expected_frame p obj payload Hne).
  rewrite Hwords, Hpdw in Hexp. fold hw n in Hexp.
  assert (Hn : (0 < n)%nat)
    by (subst n; destruct payload; [now elim Hne|cbn; lia]).
  assert (Hhw : (2 <= hw)%nat) by (subst hw; lia).
  assert (Hrl : length (removelast payload) = (n - 1)%nat).
  { subst n. rewrite (app_removelast_last 0 Hne) at 2.
    rewrite length_app. cbn. lia. }
  split.
  - intros sched Hprod.
    apply (run_drains p Hv); [exact I|].
    unfold backlog, s0. cbn [snd].
    change (remaining p (reset_regs, frame obj payload))
      with (expected p false (frame obj payload)).
    rewrite Hexp, !length_app, !length_map, length_seq.
    unfold frame. rewrite length_frame, Hrl. fold n. cbn [length]. lia.
  - intros sched Hdr out.
    assert (Hout : out = expected p false (frame obj payload))
      by (apply (emitted_drained p Hv sched s0 I Hdr)).
    rewrite Hout, Hexp. clear Hout Hexp.
    rewrite !map_app, !map_map. cbn [map o_data o_sop o_eop].
    split; [|split].
    + rewrite !stream_bytes_app. f_equal.
      * rewrite (stream_bytes_words dw (encoded_header p obj) hw 0 Hdw Hmod).
        unfold header_bytes. rewrite Hplen.
        change (Z.of_nat 0 * dw) with 0. rewrite Z.shiftr_0_r.
        f_equal. subst hw. rewrite <- E. rewrite Hl at 2.
        assert (0 <= dw / 8) by (apply Z.div_pos; lia).
        assert (0 <= header_length / (dw / 8)) by (rewrite E; lia).
        rewrite Z2Nat.inj_mul by assumption. reflexivity.
      * rewrite <- stream_bytes_app. f_equal.
        rewrite map_id. symmetry. now apply app_removelast_last.
    + rewrite (seq_cons_S 0 hw) by lia. cbn [map Nat.eqb app]. f_equal.
      rewrite (map_constant _ false) by (intros x Hx%in_seq; destruct x; [lia|reflexivity]).
      rewrite (map_constant _ false) by reflexivity.
      rewrite length_seq, Hrl.
      change [false] with (repeat false 1). rewrite <- !repeat_app.
      f_equal. lia.
    + replace hw with (S (hw - 1)) at 1 by lia.
      rewrite seq_S, map_app. cbn [map Nat.add].
      rewrite (map_constant _ false).
      2:{ intros x Hx%in_seq.
          replace (Z.of_nat x =? header_length * 8 / dw - 1) with false by by_cmp.
          apply andb_false_r. }
      rewrite (map_constant _ false) by reflexivity.
      rewrite length_seq, Hrl, <- !app_assoc. do 2 f_equal.
      cbn [app]. f_equal.
      replace (Z.of_nat (hw - 1) =? header_length * 8 / dw - 1) with true by by_cmp.
      apply andb_true_r.
Qed.

Lemma example_geometry : valid_geometry 8 3.
Proof.
  unfold valid_geometry. repeat split; try reflexivity; vm_compute; discriminate.
Qed.

Lemma framing_correctness_witness :
  LiteEthPacketizer_init Example3.sink_signals 8 Example3.layout 3 = inr Example3.pk /\
  valid_geometry 8 3 /\
  [0xAA; 0xBB] <> [] /\
  stream_bytes 8 (map o_data (emitted Example3.pk (always_ready 5)
                                (reset_regs, frame Example3.meta [0xAA; 0xBB])))
  = header_bytes Example3.pk Example3.meta ++ stream_bytes 8 [0xAA; 0xBB].
Proof.
  split; [reflexivity|]. split; [exact example_geometry|].
  split; [discriminate|].
  pose proof (framing_correctness Example3.sink_signals 8 Example3.layout 3 Example3.pk Example3.meta
                [0xAA; 0xBB] eq_refl example_geometry ltac:(discriminate)) as [_ H].
  exact (proj1 (H (always_ready 5) eq_refl)).
Defined.

(** ** Backpressure *)

(** C9: for a packetizer built for words of whole bytes and a header of
    two whole words or more, and for any fixed sequence of upstream words:
    every run emits a prefix of one and the same sequence of words, which
    depends on the upstream words only; two runs that have drained the
    upstream emit exactly the same words, with the same data and flags,
    whatever the ticks on which the downstream was ready; and the runs
    with the downstream always ready, ready every other tick, or ready
    only after any number of idle ticks, all emit that whole sequence once
    they are long enough. *)
Theorem backpressure_invariance sink_signals dw header_type header_length p q :
  LiteEthPacketizer_init sink_signals dw header_type header_length = inr p ->
  valid_geometry dw header_length ->
  let s0 := (reset_regs, q) in
  (forall sched, exists rest, expected p false q = emitted p sched s0 ++ rest) /\
  (forall sched1 sched2,
     snd (final p sched1 s0) = [] -> snd (final p sched2 s0) = [] ->
     emitted p sched1 s0 = emitted p sched2 s0) /\
  (forall idle n, (backlog p s0 <= n)%nat ->
     emitted p (always_ready n) s0 = expected p false q /\
     emitted p (every_other n) s0 = expected p false q /\
     emitted p (ready_after idle n) s0 = expected p false q).
Proof.
  intros Hp Hg s0.
  destruct (init_valid _ _ _ _ _ Hp Hg) as [Hv _].
  assert (Hdr : forall sched, snd (final p sched s0) = [] ->
                              emitted p sched s0 = expected p false q).
  { intros sched H. apply (emitted_drained p Hv sched s0 I H). }
  split; [|split].
  - intros sched. exists (remaining p (final p sched s0)).
    apply (run_spec p Hv sched s0 I).
  - intros sched1 sched2 H1 H2. now rewrite (Hdr _ H1), (Hdr _ H2).
  - intros idle n Hn. repeat split; apply Hdr; apply (run_drains p Hv); try exact I.
    + now rewrite productive_always_ready.
    + now rewrite productive_every_other.
    + now rewrite productive_ready_after.
Qed.

Lemma backpressure_invariance_witness :
  LiteEthPacketizer_init Example3.sink_signals 8 Example3.layout 3 = inr Example3.pk /\
  valid_geometry 8 3 /\
  emitted Example3.pk (every_other 5) (reset_regs, frame Example3.meta [0xAA; 0xBB])
  = emitted Example3.pk (ready_after 3 5) (reset_regs, frame Example3.meta [0xAA; 0xBB]).
Proof.
  split; [reflexivity|]. split; [exact example_geometry|].
  pose proof (backpressure_invariance Example3.sink_signals 8 Example3.layout 3 Example3.pk
                (frame Example3.meta [0xAA; 0xBB]) eq_refl example_geometry)
    as (_ & H & _).
  exact (H (every_other 5) (ready_after 3 5) eq_refl eq_refl).
Defined.

(** ** The header encoder *)

Lemma slice_index_range len i : 0 <= len -> 0 <= slice_index len i <= len.
Proof. intros H. unfold slice_index. destruct (Z.ltb_spec i 0); lia. Qed.

Lemma assign_slice_bit s lo hi rhs n :
  0 <= flen s -> 0 <= n ->
  let a := slice_index (flen s) lo in
  let b := slice_index (flen s) hi in
  Z.testbit (val (assign_slice s lo hi rhs)) n
  = if (a <=? n) && (n <? b) then Z.testbit (val rhs) (n - a)
    else Z.testbit (val s) n.
Proof.
  intros Hlen Hn a b. unfold assign_slice. fold a b. cbn [val].
  pose proof (slice_index_range (flen s) lo Hlen).
  pose proof (slice_index_range (flen s) hi Hlen).
  rewrite Z.lor_spec, Z.ldiff_spec.
  destruct (Z.leb_spec a n) as [Han|Han]; cbn [andb].
  - rewrite !Z.shiftl_spec, Z.land_spec, !Z.testbit_ones_nonneg by lia.
    destruct (Z.ltb_spec n b).
    + replace (n - a <? Z.max 0 (b - a)) with true by by_cmp.
      cbn [negb]. now rewrite andb_false_r, andb_true_r.
    + replace (n - a <? Z.max 0 (b - a)) with false by by_cmp.
      cbn [negb]. now rewrite andb_true_r, andb_false_r, orb_false_r.
  - rewrite !(Z.shiftl_spec_low _ _ n) by lia.
    cbn [negb]. now rewrite andb_true_r, orb_false_r.
Qed.

Lemma fields_in_range_bounds len l f :
  fields_in_range len l = true -> In f l ->
  0 <= byte f /\ 0 <= offset f /\ 0 < width f /\
  byte f * 8 + offset f + width f <= len.
Proof.
  unfold fields_in_range. rewrite forallb_forall. intros H Hin.
  specialize (H f Hin).
  apply andb_prop in H as [H H4]. apply andb_prop in H as [H H3].
  apply andb_prop in H as [H1 H2].
  apply Z.leb_le in H1, H2, H4. apply Z.ltb_lt in H3.
  unfold field_end, field_start in H4. auto.
Qed.

Section Encoder.

Variable obj : string -> Signal.
Variable len : Z.

Lemma disjoint_unique_cover l :
  pairwise_disjoint (map snd l) = true -> unique_cover l.
Proof.
  induction l as [|a l IH]; intros Hd n kv1 kv2 H1 H2 C1 C2; [destruct H1|].
  cbn [map pairwise_disjoint] in Hd. apply andb_prop in Hd as [Ha Hl].
  rewrite forallb_forall in Ha.
  assert (Hclash : forall kv, In kv l -> covers n (snd a) = true ->
                              covers n (snd kv) = true -> False).
  { intros kv Hin Ca Ck. specialize (Ha (snd kv) (in_map snd _ _ Hin)).
    unfold fields_overlap, covers in *.
    apply negb_true_iff, andb_false_iff in Ha.
    apply andb_prop in Ca as [?%Z.leb_le ?%Z.ltb_lt].
    apply andb_prop in Ck as [?%Z.leb_le ?%Z.ltb_lt].
    destruct Ha as [?%Z.ltb_ge | ?%Z.ltb_ge]; lia. }
  destruct H1 as [<-|H1], H2 as [<-|H2].
  - reflexivity.
  - exfalso. eauto.
  - exfalso. eauto.
  - exact (IH Hl n kv1 kv2 H1 H2 C1 C2).
Qed.

Lemma flen_fold_assign r : forall s, flen (fold_left apply_assign r s) = flen s.
Proof.
  induction r as [|a r IH]; intros s; cbn [fold_left]; [reflexivity|].
  now rewrite IH.
Qed.

Lemma fold_assign_bit l n : forall s,
  flen s = len -> 0 <= len -> 0 <= n ->
  fields_in_range len (map snd l) = true ->
  unique_cover l ->
  Z.testbit (val (fold_left apply_assign (map (encode_field obj) l) s)) n
  = match find (fun kv => covers n (snd kv)) l with
    | Some kv => Z.testbit (val (reverse_bytes (obj (fst kv))))
                           (n - field_start (snd kv))
    | None => Z.testbit (val s) n
    end.
Proof.
  induction l as [|a l IH]; intros s Hs Hlen Hn Hr Hu; [reflexivity|].
  cbn [map fold_left find].
  destruct (fields_in_range_bounds len _ (snd a) Hr (or_introl eq_refl))
    as (H1 & H2 & H3 & H4).
  cbn [map fields_in_range forallb] in Hr. apply andb_prop in Hr as [_ Hr].
  assert (Hu' : unique_cover l).
  { intros m kv1 kv2 K1 K2. apply Hu; now right. }
  rewrite IH; [|now unfold apply_assign|assumption..].
  assert (Hbit : Z.testbit (val (apply_assign s (encode_field obj a))) n
                 = if covers n (snd a)
                   then Z.testbit (val (reverse_bytes (obj (fst a))))
                                  (n - field_start (snd a))
                   else Z.testbit (val s) n).
  { unfold apply_assign, encode_field. cbn [a_start a_end a_rhs].
    rewrite assign_slice_bit by lia. rewrite Hs.
    fold (field_start (snd a)).
    change (field_start (snd a) + width (snd a)) with (field_end (snd a)).
    unfold covers, field_end, field_start.
    rewrite !slice_index_in by lia. reflexivity. }
  destruct (find (fun kv => covers n (snd kv)) l) as [kv|] eqn:Hf.
  - apply find_some in Hf as [Hin Hc].
    destruct (covers n (snd a)) eqn:Ca; [|reflexivity].
    now rewrite (Hu n a kv (or_introl eq_refl) (or_intror Hin) Ca Hc).
  - rewrite Hbit. now destruct (covers n (snd a)).
Qed.

Lemma find_unique l l' n :
  unique_cover l -> (forall kv, In kv l' <-> In kv l) ->
  find (fun kv => covers n (snd kv)) l' = find (fun kv => covers n (snd kv)) l.
Proof.
  intros Hu Hin.
  destruct (find _ l') as [kv'|] eqn:F'; destruct (find _ l) as [kv|] eqn:F.
  - apply find_some in F' as [I' C'], F as [I0 C0].
    f_equal. apply (Hu n); auto. now apply Hin.
  - apply find_some in F' as [I' C'].
    apply Hin in I'. pose proof (find_none _ _ F _ I') as C. cbn in C. congruence.
  - apply find_some in F as [I0 C0].
    apply Hin in I0. pose proof (find_none _ _ F' _ I0) as C. cbn in C. congruence.
  - reflexivity.
Qed.

Lemma fields_in_range_perm (l l' : list (string * HField)) :
  Permutation l' l ->
  fields_in_range len (map snd l) = true ->
  fields_in_range len (map snd l') = true.
Proof.
  intros Hp. unfold fields_in_range. rewrite !forallb_forall.
  intros H f Hf. apply H. apply in_map_iff in Hf as (kv & <- & Hkv).
  apply in_map. now apply (Permutation_in _ Hp).
Qed.

Lemma run_assigns_perm l l' :
  0 <= len ->
  Permutation l' l ->
  fields_in_range len (map snd l) = true ->
  unique_cover l ->
  run_assigns len (map (encode_field obj) l')
  = run_assigns len (map (encode_field obj) l).
Proof.
  intros Hlen Hp Hr Hu.
  assert (Hin : forall kv, In kv l' <-> In kv l).
  { intros kv; split; apply Permutation_in; [assumption|now symmetry]. }
  assert (Hu' : unique_cover l').
  { intros n kv1 kv2 H1 H2. apply Hu; now apply Hin. }
  unfold run_assigns.
  pose proof (flen_fold_assign (map (encode_field obj) l') (mkSig len 0)) as F1.
  pose proof (flen_fold_assign (map (encode_field obj) l) (mkSig len 0)) as F2.
  destruct (fold_left apply_assign (map (encode_field obj) l') _) as [f1 v1] eqn:E1.
  destruct (fold_left apply_assign (map (encode_field obj) l) _) as [f2 v2] eqn:E2.
  cbn [flen] in F1, F2. subst f1 f2. f_equal.
  apply Z.bits_inj'; intros n Hn.
  change v1 with (val (mkSig len v1)). change v2 with (val (mkSig len v2)).
  rewrite <- E1, <- E2.
  rewrite (fold_assign_bit l' n) by (try reflexivity; eauto using fields_in_range_perm).
  rewrite (fold_assign_bit l n) by (try reflexivity; assumption).
  now rewrite (find_unique l l' n Hu Hin).
Qed.

End Encoder.

(** ** Byte reversal *)

Lemma slice_bit s lo hi n :
  0 <= flen s -> 0 <= n ->
  Z.testbit (val (slice s lo hi)) n
  = Z.testbit (val s) (n + slice_index (flen s) lo)
    && (n <? slice_index (flen s) hi - slice_index (flen s) lo).
Proof.
  intros Hlen Hn. unfold slice. cbn [val].
  pose proof (slice_index_range (flen s) lo Hlen).
  pose proof (slice_index_range (flen s) hi Hlen).
  rewrite Z.land_spec, Z.shiftr_spec, Z.testbit_ones_nonneg by lia.
  f_equal. destruct (Z.ltb_spec n (Z.max 0 (slice_index (flen s) hi
                                            - slice_index (flen s) lo)));
    symmetry; [apply Z.ltb_lt|apply Z.ltb_ge]; lia.
Qed.

Lemma slice_high_bits s lo hi n :
  0 <= flen s -> flen (slice s lo hi) <= n ->
  Z.testbit (val (slice s lo hi)) n = false.
Proof.
  intros Hlen Hn.
  assert (0 <= n) by (unfold slice in Hn; cbn [flen] in Hn; lia).
  rewrite slice_bit by assumption.
  unfold slice in Hn; cbn [flen] in Hn.
  replace (n <? _) with false by by_cmp.
  apply andb_false_r.
Qed.

Lemma slice_drive s lo hi :
  0 <= flen s ->
  slice (drive (flen s) (val s)) lo hi = slice s lo hi.
Proof.
  intros Hlen.
  pose proof (slice_index_range (flen s) lo Hlen).
  pose proof (slice_index_range (flen s) hi Hlen).
  unfold slice at 1 2. cbn [flen drive val]. f_equal.
  apply Z.bits_inj'; intros n Hn.
  rewrite !Z.land_spec, !Z.shiftr_spec, Z.land_spec by lia.
  destruct (Z.testbit (Z.ones _) n) eqn:Hb; [|now rewrite !andb_false_r].
  rewrite Z.testbit_ones_nonneg in Hb by lia. apply Z.ltb_lt in Hb.
  rewrite Z.testbit_ones_nonneg by lia.
  replace (n + slice_index (flen s) lo <? Z.max 0 (flen s)) with true by by_cmp.
  now rewrite !andb_true_r.
Qed.

Lemma reverse_bytes_upto_S s m :
  reverse_bytes_upto s (S m)
  = let b := slice s (Z.of_nat m * 8) (Z.min ((Z.of_nat m + 1) * 8) (flen s)) in
    mkSig (flen b + flen (reverse_bytes_upto s m))
          (Z.lor (val b) (Z.shiftl (val (reverse_bytes_upto s m)) (flen b))).
Proof.
  unfold reverse_bytes_upto. rewrite seq_S, map_app, rev_app_distr. reflexivity.
Qed.

Lemma flen_reverse_bytes_upto s m :
  0 <= flen s ->
  flen (reverse_bytes_upto s m) = Z.min (8 * Z.of_nat m) (flen s).
Proof.
  intros Hlen. induction m as [|m IH]; [cbn; lia|].
  rewrite reverse_bytes_upto_S. cbn [flen]. rewrite IH.
  unfold slice. cbn [flen]. unfold slice_index.
  destruct (Z.ltb_spec (Z.of_nat m * 8) 0); [lia|].
  destruct (Z.ltb_spec (Z.min ((Z.of_nat m + 1) * 8) (flen s)) 0); lia.
Qed.

Lemma reverse_bytes_upto_high_bits s m : forall n,
  0 <= flen s -> flen (reverse_bytes_upto s m) <= n ->
  Z.testbit (val (reverse_bytes_upto s m)) n = false.
Proof.
  induction m as [|m IH]; intros n Hlen Hn; [apply Z.testbit_0_l|].
  rewrite reverse_bytes_upto_S in *. cbn [flen val] in *.
  pose proof (flen_reverse_bytes_upto s m Hlen) as Hf.
  set (b := slice s _ _) in *.
  assert (0 <= flen b) by (unfold b, slice; cbn [flen]; lia).
  rewrite Z.lor_spec, Z.shiftl_spec by lia.
  rewrite IH by lia.
  unfold b. rewrite slice_high_bits by (fold b; lia). reflexivity.
Qed.

Lemma flen_reverse_bytes s : 0 <= flen s -> flen (reverse_bytes s) = flen s.
Proof.
  intros Hlen. unfold reverse_bytes. rewrite flen_reverse_bytes_upto by assumption.
  assert (0 <= (flen s + 7) / 8) by (apply Z.div_pos; lia).
  pose proof (Z.div_mod (flen s + 7) 8 ltac:(lia)).
  pose proof (Z.mod_pos_bound (flen s + 7) 8 ltac:(lia)). lia.
Qed.

Lemma reverse_bytes_drive s :
  0 <= flen s -> reverse_bytes (drive (flen s) (val s)) = reverse_bytes s.
Proof.
  intros Hlen. unfold reverse_bytes, reverse_bytes_upto. cbn [flen drive].
  f_equal. apply map_ext; intros i.
  apply (slice_drive s _ _ Hlen).
Qed.

Lemma reverse_bytes_upto_byte s n m : forall j,
  flen s = 8 * Z.of_nat n -> (m <= n)%nat -> 0 <= j < Z.of_nat m ->
  wordn 8 (val (reverse_bytes_upto s m)) j = wordn 8 (val s) (Z.of_nat m - 1 - j).
Proof.
  induction m as [|m IH]; intros j Hlen Hm Hj; [lia|].
  rewrite reverse_bytes_upto_S. cbn [val].
  set (b := slice s _ _).
  assert (Hb : b = slice (mkSig (flen s) (val s)) (Z.of_nat m * 8) ((Z.of_nat m + 1) * 8)).
  { unfold b. destruct s as [l v]. cbn [flen val] in *. f_equal. lia. }
  assert (Hfb : flen b = 8).
  { rewrite Hb. unfold slice. cbn [flen]. rewrite !slice_index_in by lia. lia. }
  assert (Hvb : val b = wordn 8 (val s) (Z.of_nat m)).
  { rewrite Hb. apply slice_wordn; lia. }
  rewrite Hfb, Hvb.
  apply Z.bits_inj'; intros k Hk.
  rewrite !wordn_bit by lia.
  destruct (Z.ltb_spec k 8); [|now rewrite !andb_false_r].
  rewrite !andb_true_r, Z.lor_spec, Z.shiftl_spec by lia.
  destruct (Z.eq_dec j 0) as [->|Hj0].
  - rewrite wordn_bit by lia.
    replace (k + 0 * 8 <? 8) with true by by_cmp.
    rewrite andb_true_r, (Z.testbit_neg_r _ (k + 0 * 8 - 8)) by lia.
    rewrite orb_false_r. f_equal. lia.
  - rewrite wordn_bit by lia.
    replace (k + j * 8 <? 8) with false by by_cmp.
    rewrite andb_false_r. cbn [orb].
    specialize (IH (j - 1) Hlen ltac:(lia) ltac:(lia)).
    apply (f_equal (fun z => Z.testbit z k)) in IH.
    rewrite !wordn_bit in IH by lia.
    replace (k <? 8) with true in IH by by_cmp.
    rewrite !andb_true_r in IH.
    replace (k + j * 8 - 8) with (k + (j - 1) * 8) by lia.
    rewrite IH. f_equal. lia.
Qed.

Lemma reverse_bytes_high_bits s n :
  0 <= flen s -> flen s <= n -> Z.testbit (val (reverse_bytes s)) n = false.
Proof.
  intros Hlen Hn. apply reverse_bytes_upto_high_bits; [assumption|].
  fold (reverse_bytes s). now rewrite flen_reverse_bytes.
Qed.

Lemma find_covering l n kv :
  unique_cover l -> In kv l -> covers n (snd kv) = true ->
  find (fun kv => covers n (snd kv)) l = Some kv.
Proof.
  intros Hu Hin Hc.
  destruct (find _ l) as [kv'|] eqn:F.
  - apply find_some in F as [I' C']. f_equal. now apply (Hu n).
  - pose proof (find_none _ _ F _ Hin) as C. cbn in C. congruence.
Qed.

Lemma wordn_land_ones x n j :
  0 <= j < n -> wordn 8 (Z.land x (Z.ones (8 * n))) j = wordn 8 x j.
Proof.
  intros Hj. apply Z.bits_inj'; intros k Hk.
  rewrite !wordn_bit by lia.
  destruct (Z.ltb_spec k 8); [|now rewrite !andb_false_r].
  rewrite Z.land_spec, Z.testbit_ones_nonneg by lia.
  replace (k + j * 8 <? 8 * n) with true by by_cmp.
  now rewrite !andb_true_r.
Qed.

(** C8 (as stated, refuted): a 24-bit parameter AABBCC written into a
    16-bit field.  The field receives BBAA, the two most significant
    bytes of the parameter; the parameter masked to 16 bits and then
    byte-reversed would be CCBB. *)
Lemma wide_parameter_not_masked :
  pairwise_disjoint (map snd Wide.layout) = true /\
  fields_in_range 16 (map snd Wide.layout) = true /\
  val (slice (run_assigns 16 (_encode_header Wide.layout Wide.meta)) 0 16) = 0xBBAA /\
  val (reverse_bytes (drive 16 (val (Wide.meta "x")))) = 0xCCBB.
Proof. repeat split. Qed.

(** C8 (amended): for a layout whose fields are pairwise disjoint ranges
    of the header bits, the vector produced by the encoder has the width
    of the header and holds, at bits [byte*8 + offset] onwards, the low
    [width] bits of each field's parameter with its bytes reversed over
    the parameter's own width.  A parameter as wide as its field is
    therefore written in network byte order; a wider parameter is not
    masked to the field first: for a parameter of [m] whole bytes and a
    field of [n <= m] whole bytes, byte [j] of the field's slot is byte
    [m-1-j] of the parameter, its most significant bytes first.  The
    vector is the same in whatever order the fields are processed. *)
Theorem encode_header_layout h_dict obj len :
  0 <= len ->
  pairwise_disjoint (map snd h_dict) = true ->
  fields_in_range len (map snd h_dict) = true ->
  let hdr := run_assigns len (_encode_header h_dict obj) in
  flen hdr = len /\
  (forall k f, In (k, f) h_dict ->
     val (slice hdr (byte f * 8 + offset f) (byte f * 8 + offset f + width f))
     = Z.land (val (reverse_bytes (obj k))) (Z.ones (width f)) /\
     (flen (obj k) = width f ->
      val (slice hdr (byte f * 8 + offset f) (byte f * 8 + offset f + width f))
      = val (reverse_bytes (drive (width f) (val (obj k))))) /\
     (forall m n j, flen (obj k) = 8 * m -> width f = 8 * n -> n <= m ->
        0 <= j < n ->
        wordn 8 (val (slice hdr (byte f * 8 + offset f)
                            (byte f * 8 + offset f + width f))) j
        = wordn 8 (val (obj k)) (m - 1 - j))) /\
  (forall l, Permutation l h_dict ->
     run_assigns len (map (encode_field obj) l) = hdr).
Proof.
  intros Hlen Hd Hr hdr.
  pose proof (disjoint_unique_cover h_dict Hd) as Hu.
  pose proof (sorted_items_perm h_dict) as Hperm.
  assert (Hhdr : hdr = run_assigns len (map (encode_field obj) h_dict)).
  { apply run_assigns_perm; assumption. }
  assert (Hflen : flen hdr = len) by apply flen_run_assigns.
  assert (Hslot : forall k f, In (k, f) h_dict ->
            val (slice hdr (byte f * 8 + offset f) (byte f * 8 + offset f + width f))
            = Z.land (val (reverse_bytes (obj k))) (Z.ones (width f))).
  { intros k f Hin.
    destruct (fields_in_range_bounds len _ f Hr (in_map snd _ _ Hin))
      as (H1 & H2 & H3 & H4).
    apply Z.bits_inj'; intros n Hn.
    rewrite slice_bit by lia. rewrite Hflen, !slice_index_in by lia.
    rewrite Z.land_spec, Z.testbit_ones_nonneg by lia.
    replace (byte f * 8 + offset f + width f - (byte f * 8 + offset f))
      with (width f) by lia.
    destruct (Z.ltb_spec n (width f)); [|now rewrite !andb_false_r].
    rewrite !andb_true_r, Hhdr. unfold run_assigns.
    rewrite (fold_assign_bit obj len h_dict) by (try reflexivity; assumption || lia).
    rewrite (find_covering h_dict _ (k, f) Hu Hin).
    - cbn [fst snd]. unfold field_start. f_equal. lia.
    - unfold covers, field_end, field_start. cbn [snd].
      apply andb_true_intro. split; [apply Z.leb_le|apply Z.ltb_lt]; lia. }
  split; [exact Hflen|]. split.
  - intros k f Hin.
    destruct (fields_in_range_bounds len _ f Hr (in_map snd _ _ Hin))
      as (_ & _ & H3 & _).
    split; [exact (Hslot k f Hin)|]. split.
    + intros Hfl. rewrite (Hslot k f Hin), <- Hfl.
      rewrite reverse_bytes_drive by lia.
      apply Z.bits_inj'; intros n Hn.
      rewrite Z.land_spec, Z.testbit_ones_nonneg by lia.
      destruct (Z.ltb_spec n (flen (obj k))); [apply andb_true_r|].
      rewrite andb_false_r. symmetry. apply reverse_bytes_high_bits; lia.
    + intros m n j Hm Hn Hnm Hj. rewrite (Hslot k f Hin), Hn.
      rewrite wordn_land_ones by lia.
      unfold reverse_bytes. rewrite Hm.
      replace ((8 * m + 7) / 8) with m
        by (apply Z.div_unique with (r := 7); lia).
      rewrite (reverse_bytes_upto_byte (obj k) (Z.to_nat m) (Z.to_nat m)) by lia.
      f_equal. lia.
  - intros l Hl. rewrite Hhdr. apply run_assigns_perm; assumption.
Qed.

Lemma encode_header_layout_witness :
  0 <= 24 /\
  pairwise_disjoint (map snd Example3.layout) = true /\
  fields_in_range 24 (map snd Example3.layout) = true /\
  wordn 8 (val (slice (run_assigns 24 (_encode_header Example3.layout Example3.meta))
                      (1 * 8 + 0) (1 * 8 + 0 + 16))) 0
  = wordn 8 (val (Example3.meta "tag")) (2 - 1 - 0).
Proof.
  split; [discriminate|]. split; [reflexivity|]. split; [reflexivity|].
  pose proof (encode_header_layout Example3.layout Example3.meta 24
                ltac:(discriminate) eq_refl eq_refl) as (_ & H & _).
  destruct (H "tag"%string (mkHField 1 0 16) (or_intror (or_introl eq_refl)))
    as (_ & _ & Hbyte).
  apply (Hbyte 2 2 0); [reflexivity|reflexivity|discriminate|
                        split; [discriminate|reflexivity]].
Defined.

(** ** Frames of any content *)

Section AnyFrame.

Variable p : Packetizer.

Lemma expected_copy_ends q : forall q',
  ends_at_last q = true ->
  expected p true (q ++ q') = map fwd q ++ expected p false q'.
Proof.
  induction q as [|w q IH]; intros q' H; [discriminate|].
  destruct q as [|w' q].
  - cbn in H. cbn. now rewrite H.
  - change (ends_at_last (w :: w' :: q))
      with (negb (w_eop w) && ends_at_last (w' :: q)) in H.
    apply andb_prop in H as [Hw H].
    change (expected p true ((w :: w' :: q) ++ q'))
      with (fwd w :: expected p (negb (w_eop w)) ((w' :: q) ++ q')).
    rewrite Hw, IH by assumption. reflexivity.
Qed.

Lemma expected_frame_app q q' :
  well_framed q = true ->
  expected p false (q ++ q')
  = header_words p (hd (mkWord false false 0 false (fun _ => mkSig 0 0)) q)
    ++ map fwd q ++ expected p false q'.
Proof.
  destruct q as [|w q]; [discriminate|]. intros H.
  unfold well_framed in H. apply andb_prop in H as [Hsop Hend].
  pose proof (expected_copy_ends (w :: q) q' Hend) as Hc.
  change ((w :: q) ++ q') with (w :: q ++ q') in *.
  cbn [expected map app hd] in *. rewrite Hsop. now rewrite Hc.
Qed.

Lemma expected_no_start q q' :
  no_start q = true -> expected p false (q ++ q') = expected p false q'.
Proof.
  induction q as [|w q IH]; intros H; [reflexivity|].
  cbn in H. apply andb_prop in H as [Hw H].
  cbn [app expected]. apply negb_true_iff in Hw. rewrite Hw. now apply IH.
Qed.

End AnyFrame.

Lemma drained_output sink_signals dw header_type header_length p q sched :
  LiteEthPacketizer_init sink_signals dw header_type header_length = inr p ->
  valid_geometry dw header_length ->
  snd (final p sched (reset_regs, q)) = [] ->
  emitted p sched (reset_regs, q) = expected p false q.
Proof.
  intros Hp Hg Hdr.
  destruct (init_valid _ _ _ _ _ Hp Hg) as [Hv _].
  exact (emitted_drained p Hv sched _ (inv_reset p q) Hdr).
Qed.

(** X1: a frame of any content.  Whatever the data, the error flags and
    the parameters carried by its words, a drained frame comes out as the
    header words computed from the parameters of its first word, followed
    by every upstream word with its own data, end and error flags and the
    start flag cleared; header words never carry the error flag. *)
Theorem any_frame_output sink_signals dw header_type header_length p w q sched :
  LiteEthPacketizer_init sink_signals dw header_type header_length = inr p ->
  valid_geometry dw header_length ->
  well_framed (w :: q) = true ->
  snd (final p sched (reset_regs, w :: q)) = [] ->
  emitted p sched (reset_regs, w :: q) = header_words p w ++ map fwd (w :: q) /\
  map o_error (emitted p sched (reset_regs, w :: q))
  = repeat false (Z.to_nat (header_length / (dw / 8))) ++ map w_error (w :: q).
Proof.
  intros Hp Hg Hf Hdr.
  rewrite (drained_output _ _ _ _ _ _ _ Hp Hg Hdr).
  pose proof (expected_frame_app p (w :: q) [] Hf) as H.
  change (expected p false []) with (@nil OutWord) in H.
  rewrite !app_nil_r in H. cbn [hd] in H.
  rewrite H. split; [reflexivity|].
  apply init_some in Hp as [_ ->].
  rewrite map_app, !map_map. unfold header_words. rewrite map_map.
  cbn [o_error hword fwd p_header_words].
  rewrite (map_constant _ false) by reflexivity.
  now rewrite length_seq.
Qed.

Lemma any_frame_output_witness :
  LiteEthPacketizer_init Example3.sink_signals 8 Example3.layout 3 = inr Example3.pk /\
  valid_geometry 8 3 /\
  map o_error
      (emitted Example3.pk (every_other 5)
         (reset_regs, [mkWord true false 0xAA true Example3.meta;
                       mkWord true true 0xBB false (fun _ => mkSig 0 0)]))
  = repeat false (Z.to_nat (3 / (8 / 8))) ++ [true; false].
Proof.
  split; [reflexivity|]. split; [exact example_geometry|].
  exact (proj2 (any_frame_output Example3.sink_signals 8 Example3.layout 3 Example3.pk
                  (mkWord true false 0xAA true Example3.meta)
                  [mkWord true true 0xBB false (fun _ => mkSig 0 0)]
                  (every_other 5) eq_refl example_geometry eq_refl eq_refl)).
Defined.

(** X2: frames compose.  When the upstream offers words that open no
    frame, then a frame, then anything else, a drained run emits what the
    frame alone gives followed by what the rest alone gives, whatever the
    three schedules: nothing of a frame leaks into the next, and the words
    before the first start flag leave no trace. *)
Theorem frames_compose sink_signals dw header_type header_length p junk f q sched sched1 sched2 :
  LiteEthPacketizer_init sink_signals dw header_type header_length = inr p ->
  valid_geometry dw header_length ->
  no_start junk = true ->
  well_framed f = true ->
  snd (final p sched (reset_regs, junk ++ f ++ q)) = [] ->
  snd (final p sched1 (reset_regs, f)) = [] ->
  snd (final p sched2 (reset_regs, q)) = [] ->
  emitted p sched (reset_regs, junk ++ f ++ q)
  = emitted p sched1 (reset_regs, f) ++ emitted p sched2 (reset_regs, q).
Proof.
  intros Hp Hg Hj Hf H H1 H2.
  rewrite !(drained_output _ _ _ _ _ _ _ Hp Hg) by assumption.
  rewrite expected_no_start by assumption.
  rewrite (expected_frame_app p f q Hf).
  pose proof (expected_frame_app p f [] Hf) as E.
  change (expected p false []) with (@nil OutWord) in E.
  rewrite !app_nil_r in E.
  rewrite E, <- !app_assoc. reflexivity.
Qed.

Lemma frames_compose_witness :
  LiteEthPacketizer_init Example3.sink_signals 8 Example3.layout 3 = inr Example3.pk /\
  valid_geometry 8 3 /\
  no_start (frame_from Example3.meta false [0x11]) = true /\
  well_framed (frame Example3.meta [0xAA; 0xBB]) = true /\
  emitted Example3.pk (always_ready 10)
    (reset_regs, frame_from Example3.meta false [0x11]
                 ++ frame Example3.meta [0xAA; 0xBB] ++ frame Example3.meta [0xCC])
  = emitted Example3.pk (every_other 5) (reset_regs, frame Example3.meta [0xAA; 0xBB])
    ++ emitted Example3.pk (ready_after 2 4) (reset_regs, frame Example3.meta [0xCC]).
Proof.
  split; [reflexivity|]. split; [exact example_geometry|].
  split; [reflexivity|]. split; [reflexivity|].
  exact (frames_compose Example3.sink_signals 8 Example3.layout 3 Example3.pk
           (frame_from Example3.meta false [0x11])
           (frame Example3.meta [0xAA; 0xBB]) (frame Example3.meta [0xCC])
           (always_ready 10) (every_other 5) (ready_after 2 4)
           eq_refl example_geometry eq_refl eq_refl eq_refl eq_refl eq_refl).
Defined.

(** ** What every run keeps *)

Lemma last_cons_cons {A} (a b d : A) l : last (b :: l) a = last (b :: l) d.
Proof.
  revert b. induction l as [|c l IH]; intros b; [reflexivity|].
  change (last (b :: c :: l) a) with (last (c :: l) a).
  change (last (b :: c :: l) d) with (last (c :: l) d). apply IH.
Qed.

Lemma closes_tail st st' hr hr' c c' w q :
  closes (mkRegs st hr c, w :: q) ->
  (q = [] -> st' = IDLE) ->
  closes (mkRegs st' hr' c', q).
Proof.
  unfold closes. cbn [fst snd state]. intros H Hq.
  destruct q as [|w' q]; [now apply Hq|].
  destruct q as [|w'' q]; [exact H|].
  change (last (w' :: w'' :: q) w) with (last (w'' :: q) w) in H.
  now rewrite (last_cons_cons w w'' w') in H.
Qed.

Lemma tick_closes p s valid ready :
  closes s -> closes (fst (tick p s valid ready)).
Proof.
  destruct s as [[st hr c] q]. intros H.
  unfold tick, step, sync, comb. cbn [fst snd state].
  destruct q as [|w q].
  - unfold closes in H. cbn [fst snd state] in H. subst st. reflexivity.
  - destruct st; cbn [present].
    + unfold act_IDLE. cbn [sink_stb sink_sop].
      destruct valid, (w_sop w); cbn [andb]; try exact H.
      cbn. eapply closes_tail; [exact H|reflexivity].
    + cbn. rewrite andb_false_r. exact H.
    + destruct valid, ready; cbn; try exact H.
      eapply closes_tail; [exact H|]. intros ->.
      unfold closes in H. cbn in H. now rewrite H.
Qed.

Lemma run_closes p sched : forall s, closes s -> closes (final p sched s).
Proof.
  induction sched as [|[valid ready] sched IH]; intros s H; [exact H|].
  unfold final. rewrite run_cons. cbn [fst]. apply IH. now apply tick_closes.
Qed.

(** X3: back to idle.  When the last word offered upstream carries the
    end flag, every run that has consumed all the upstream words leaves
    the machine in [IDLE], whatever came before that word and whatever
    the configuration. *)
Theorem drained_run_ends_idle p w q sched :
  w_eop (last q w) = true ->
  snd (final p sched (reset_regs, w :: q)) = [] ->
  state (fst (final p sched (reset_regs, w :: q))) = IDLE.
Proof.
  intros Hlast Hdr.
  pose proof (run_closes p sched (reset_regs, w :: q) Hlast) as H.
  unfold closes in H. now rewrite Hdr in H.
Qed.

Lemma drained_run_ends_idle_witness :
  state (fst (final Example3.pk (every_other 5)
                (reset_regs, frame Example3.meta [0xAA; 0xBB]))) = IDLE.
Proof.
  exact (drained_run_ends_idle Example3.pk
           (mkWord true false 0xAA false Example3.meta)
           [mkWord false true 0xBB false Example3.meta]
           (every_other 5) eq_refl eq_refl).
Defined.

Lemma drive_range len x : 0 <= len -> 0 <= val (drive len x) < 2 ^ len.
Proof.
  intros H. unfold drive. cbn [val].
  rewrite Z.max_r, Z.land_ones by lia.
  apply Z.mod_pos_bound. now apply Z.pow_pos_nonneg.
Qed.

Lemma tick_regs_in_range p s valid ready :
  valid_config p -> inv p s -> regs_in_range p (fst s) ->
  regs_in_range p (fst (fst (tick p s valid ready))).
Proof.
  intros Hv Hinv [Hh Hc].
  pose proof Hv as (Hdw & Hmod & Hlen & Hw).
  assert (Hb : 0 <= p_header_length p * 8)
    by (rewrite (header_bits_words p Hv); nia).
  destruct s as [[st hr c] q]. cbn [fst header_reg counter_value] in *.
  unfold regs_in_range, tick, step, sync, comb. cbn [fst snd state].
  destruct st.
  - split; [|cbn; unfold act_IDLE;
             destruct (sink_stb _ && sink_sop _); cbn; lia].
    unfold header_reg_sync, act_IDLE.
    destruct (sink_stb _ && sink_sop _); cbn [load shift header_reg];
      [|exact Hh].
    destruct (true && ready); [apply drive_range; lia|exact Hh].
  - unfold inv in Hinv. cbn [fst snd state counter_value] in Hinv.
    destruct q as [|w q]; [destruct Hinv|]. destruct Hinv as [Hc' _].
    unfold act_SEND_HEADER, header_reg_sync.
    cbn [load shift counter_reset counter_ce counter_sync header_reg
         counter_value andb].
    destruct ready.
    + split; [apply drive_range; lia|].
      rewrite Z.mod_small; [lia|]. unfold counter_bits.
      pose proof (bits_for_bound (p_header_words p - 1) ltac:(lia)). lia.
    + split; assumption.
  - unfold act_COPY. cbn. split; assumption.
Qed.

(** X4: the registers stay within their widths.  In every system
    reachable from reset, [header_reg] is a value of [header_length*8]
    bits and the counter stays below the number of header words, so it
    never wraps; while the machine is in [SEND_HEADER] the word that
    opened the frame is still pending upstream and the counter has not
    passed [header_words - 2]. *)
Theorem registers_stay_in_range sink_signals dw header_type header_length p q sched :
  LiteEthPacketizer_init sink_signals dw header_type header_length = inr p ->
  valid_geometry dw header_length ->
  let s := final p sched (reset_regs, q) in
  0 <= header_reg (fst s) < 2 ^ (header_length * 8) /\
  0 <= counter_value (fst s) <= header_length / (dw / 8) - 1 /\
  (state (fst s) = SEND_HEADER ->
   snd s <> [] /\ counter_value (fst s) <= header_length / (dw / 8) - 2).
Proof.
  intros Hp Hg.
  destruct (init_valid _ _ _ _ _ Hp Hg) as [Hv _].
  assert (H : forall sched s, inv p s -> regs_in_range p (fst s) ->
              inv p (final p sched s) /\ regs_in_range p (fst (final p sched s))).
  { clear sched. induction sched as [|[valid ready] sched IH]; intros s Hi Hr;
      [now split|].
    unfold final. rewrite run_cons. cbn [fst]. apply IH.
    - apply (tick_spec p Hv s valid ready Hi).
    - now apply tick_regs_in_range. }
  assert (Hr0 : regs_in_range p (fst (reset_regs, q))).
  { pose proof (header_bits_words p Hv) as Hb.
    destruct Hv as (Hdw & Hmod & Hlen & Hw). unfold regs_in_range. cbn.
    split; [|lia]. split; [lia|]. apply Z.pow_pos_nonneg; nia. }
  destruct (H sched _ (inv_reset p q) Hr0) as [Hi [Hh Hc]].
  intros s. fold s in Hi, Hh, Hc. clearbody s.
  apply init_some in Hp as [_ ->]. cbn [p_header_length p_header_words] in *.
  split; [exact Hh|]. split; [exact Hc|].
  intros Hst. unfold inv in Hi. rewrite Hst in Hi.
  cbn [p_header_words] in Hi.
  destruct (snd s); [destruct Hi|]. split; [discriminate|]. lia.
Qed.

Lemma registers_stay_in_range_witness :
  LiteEthPacketizer_init Example3.sink_signals 8 Example3.layout 3 = inr Example3.pk /\
  valid_geometry 8 3 /\
  0 <= counter_value (fst (final Example3.pk (every_other 3)
                             (reset_regs, frame Example3.meta [0xAA; 0xBB])))
    <= 3 / (8 / 8) - 1.
Proof.
  split; [reflexivity|]. split; [exact example_geometry|].
  exact (proj1 (proj2 (registers_stay_in_range Example3.sink_signals 8 Example3.layout 3 Example3.pk
                         (frame Example3.meta [0xAA; 0xBB]) (every_other 3)
                         eq_refl example_geometry))).
Defined.

(** X5: a downstream that is not ready freezes the frame.  On such a tick
    no word is emitted; in [SEND_HEADER] and in [COPY] nothing changes at
    all, registers and pending upstream words alike; in [IDLE] the machine
    stays idle with its header register untouched, and the only upstream
    word it may consume is a valid word without the start flag, which it
    discards. *)
Theorem not_ready_freezes p r q valid :
  snd (tick p (r, q) valid false) = None /\
  (state r <> IDLE -> fst (tick p (r, q) valid false) = (r, q)) /\
  (state r = IDLE ->
   state (fst (fst (tick p (r, q) valid false))) = IDLE /\
   header_reg (fst (fst (tick p (r, q) valid false))) = header_reg r /\
   snd (fst (tick p (r, q) valid false))
   = match q with
     | w :: q' => if valid && negb (w_sop w) then q' else q
     | [] => []
     end).
Proof.
  destruct r as [st hr c].
  unfold tick, step, sync, comb. cbn [fst snd state].
  rewrite andb_false_r. split; [reflexivity|]. split.
  - intros Hst. destruct st; [now elim Hst| |].
    + cbn. now rewrite andb_false_r.
    + cbn. now rewrite !andb_false_r.
  - intros ->. unfold act_IDLE, header_reg_sync.
    destruct q as [|w q]; [cbn; auto|].
    cbn [present sink_stb sink_sop].
    destruct valid, (w_sop w); cbn; auto.
Qed.

(** ** Timing with both endpoints always willing *)

Section Timing.

Variable p : Packetizer.
Hypothesis Hvalid : valid_config p.

Lemma final_cons valid ready sched s :
  final p ((valid, ready) :: sched) s = final p sched (fst (tick p s valid ready)).
Proof. unfold final at 1. now rewrite run_cons. Qed.

Lemma states_cons valid ready sched s :
  states p ((valid, ready) :: sched) s
  = state (fst s) :: states p sched (fst (tick p s valid ready)).
Proof. unfold states at 1. now rewrite run_cons. Qed.

Lemma final_app a : forall b s,
  final p (a ++ b) s = final p b (final p a s).
Proof.
  induction a as [|[v r] a IH]; intros b s; [reflexivity|].
  cbn [app]. now rewrite !final_cons, IH.
Qed.

Lemma states_app a : forall b s,
  states p (a ++ b) s = removelast (states p a s) ++ states p b (final p a s).
Proof.
  induction a as [|[v r] a IH]; intros b s; [reflexivity|].
  cbn [app]. rewrite !states_cons, final_cons, IH.
  destruct (states p a (fst (tick p s v r))) eqn:E; [|reflexivity].
  destruct a as [|[v' r'] a]; [discriminate|].
  rewrite states_cons in E. discriminate.
Qed.

Lemma idle_start_tick hr c w q :
  w_sop w = true ->
  exists hr',
    fst (tick p (mkRegs IDLE hr c, w :: q) true true)
    = (mkRegs SEND_HEADER hr' 0, w :: q).
Proof.
  intros Hs. unfold tick, step, sync, comb. cbn [fst snd state present].
  unfold act_IDLE. cbn [sink_stb sink_sop andb]. rewrite Hs. cbn.
  eexists. reflexivity.
Qed.

Lemma send_header_phase w q k : forall hr c,
  0 <= c -> c + Z.of_nat k = p_header_words p - 2 ->
  exists hr' c',
    final p (always_ready (S k)) (mkRegs SEND_HEADER hr c, w :: q)
    = (mkRegs COPY hr' c', w :: q) /\
    states p (always_ready (S k)) (mkRegs SEND_HEADER hr c, w :: q)
    = repeat SEND_HEADER (S k) ++ [COPY].
Proof.
  pose proof Hvalid as (Hdw & Hmod & Hlen & Hw).
  induction k as [|k IH]; intros hr c Hc Hk.
  - cbn [always_ready repeat]. rewrite final_cons, states_cons.
    unfold tick, step, sync, comb. cbn [fst snd state present].
    unfold act_SEND_HEADER. cbn [counter_value next_state andb sink_stb sink_ack].
    replace (c =? p_header_words p - 2) with true by by_cmp.
    cbn. rewrite ?andb_false_r. eexists _, _. split; reflexivity.
  - change (always_ready (S (S k))) with ((true, true) :: always_ready (S k)).
    rewrite final_cons, states_cons.
    assert (Ht : exists hr',
               fst (tick p (mkRegs SEND_HEADER hr c, w :: q) true true)
               = (mkRegs SEND_HEADER hr' (c + 1), w :: q)).
    { unfold tick, step, sync, comb. cbn [fst snd state present].
      unfold act_SEND_HEADER.
      cbn [counter_value next_state andb sink_stb sink_ack counter_reset
           counter_ce counter_sync].
      replace (c =? p_header_words p - 2) with false by by_cmp.
      rewrite ?andb_false_r, Z.mod_small.
      - eexists. reflexivity.
      - unfold counter_bits.
        pose proof (bits_for_bound (p_header_words p - 1) ltac:(lia)). lia. }
    destruct Ht as [hr1 ->].
    destruct (IH hr1 (c + 1) ltac:(lia) ltac:(lia)) as (hr' & c' & Hf & Hs).
    exists hr', c'. split; [exact Hf|].
    cbn [fst state]. rewrite Hs. reflexivity.
Qed.

Lemma copy_phase q : forall hr c,
  ends_at_last q = true ->
  final p (always_ready (length q)) (mkRegs COPY hr c, q) = (mkRegs IDLE hr c, []) /\
  states p (always_ready (length q)) (mkRegs COPY hr c, q)
  = repeat COPY (length q) ++ [IDLE].
Proof.
  induction q as [|w q IH]; intros hr c H; [discriminate|].
  cbn [length]. change (always_ready (S (length q)))
    with ((true, true) :: always_ready (length q)).
  rewrite final_cons, states_cons.
  destruct q as [|w' q].
  - cbn in H. unfold tick, step, sync, comb. cbn. rewrite H. cbn.
    split; reflexivity.
  - change (ends_at_last (w :: w' :: q))
      with (negb (w_eop w) && ends_at_last (w' :: q)) in H.
    apply andb_prop in H as [Hw H]. apply negb_true_iff in Hw.
    assert (Ht : fst (tick p (mkRegs COPY hr c, w :: w' :: q) true true)
                 = (mkRegs COPY hr c, w' :: q)).
    { unfold tick, step, sync, comb. cbn. rewrite Hw. reflexivity. }
    rewrite Ht. destruct (IH hr c H) as [Hf Hs].
    split; [exact Hf|]. cbn [fst state]. rewrite Hs. reflexivity.
Qed.

End Timing.

(** X6: one word per tick.  With both endpoints always willing, a frame
    of [n] words through a packetizer of [hw] header words is consumed in
    exactly [hw + n] ticks, each of which emits a word: one tick in
    [IDLE], [hw - 1] in [SEND_HEADER], [n] in [COPY], after which the
    machine is idle again with nothing left upstream. *)
Theorem always_ready_timing sink_signals dw header_type header_length p w q :
  LiteEthPacketizer_init sink_signals dw header_type header_length = inr p ->
  valid_geometry dw header_length ->
  well_framed (w :: q) = true ->
  let hw := Z.to_nat (header_length / (dw / 8)) in
  let n := length (w :: q) in
  let s0 := (reset_regs, w :: q) in
  snd (final p (always_ready (hw + n)) s0) = [] /\
  states p (always_ready (hw + n)) s0
  = IDLE :: repeat SEND_HEADER (hw - 1) ++ repeat COPY n ++ [IDLE] /\
  length (emitted p (always_ready (hw + n)) s0) = (hw + n)%nat.
Proof.
  intros Hp Hg Hf hw n s0.
  destruct (init_valid _ _ _ _ _ Hp Hg) as [Hv _].
  assert (Hhw : p_header_words p = header_length / (dw / 8))
    by (apply init_some in Hp as [_ ->]; reflexivity).
  pose proof Hv as (_ & _ & _ & Hw2).
  unfold well_framed in Hf. apply andb_prop in Hf as [Hsop Hend].
  assert (Hsplit : always_ready (hw + n)
                   = [(true, true)] ++ always_ready (S (hw - 2)) ++ always_ready n).
  { unfold always_ready. rewrite <- repeat_app.
    change [(true, true)] with (repeat (true, true) 1).
    rewrite <- repeat_app. f_equal. subst hw. lia. }
  destruct (idle_start_tick p 0 0 w q Hsop) as [hr1 Ht].
  destruct (send_header_phase p Hv w q (hw - 2) hr1 0 ltac:(lia)
              ltac:(subst hw; lia)) as (hr2 & c2 & Hf2 & Hs2).
  destruct (copy_phase p (w :: q) hr2 c2 Hend) as [Hf3 Hs3].
  assert (Hfin : final p (always_ready (hw + n)) s0 = (mkRegs IDLE hr2 c2, [])).
  { rewrite Hsplit, !final_app. unfold s0.
    change (final p [(true, true)] (reset_regs, w :: q))
      with (fst (tick p (mkRegs IDLE 0 0, w :: q) true true)).
    rewrite Ht, Hf2. exact Hf3. }
  split; [now rewrite Hfin|]. split.
  - rewrite Hsplit, !states_app. unfold s0.
    change (final p [(true, true)] (reset_regs, w :: q))
      with (fst (tick p (mkRegs IDLE 0 0, w :: q) true true)).
    change (states p [(true, true)] (reset_regs, w :: q))
      with [IDLE; state (fst (fst (tick p (mkRegs IDLE 0 0, w :: q) true true)))].
    rewrite Ht, Hs2, Hf2. unfold n. rewrite Hs3. cbn [removelast fst state app].
    rewrite removelast_last. f_equal. f_equal.
    replace (S (hw - 2)) with (hw - 1)%nat by (subst hw; lia). reflexivity.
  - assert (Hdr : snd (final p (always_ready (hw + n)) s0) = []) by now rewrite Hfin.
    rewrite (emitted_drained p Hv _ s0 (inv_reset p _) Hdr).
    change (remaining p s0) with (expected p false (w :: q)).
    pose proof (expected_frame_app p (w :: q) []
                  ltac:(unfold well_framed; now rewrite Hsop, Hend)) as E.
    change (expected p false []) with (@nil OutWord) in E.
    rewrite !app_nil_r in E. rewrite E.
    rewrite length_app, length_map. unfold header_words.
    rewrite length_map, length_seq, Hhw. reflexivity.
Qed.

Lemma always_ready_timing_witness :
  LiteEthPacketizer_init Example3.sink_signals 8 Example3.layout 3 = inr Example3.pk /\
  valid_geometry 8 3 /\
  states Example3.pk (always_ready (Z.to_nat (3 / (8 / 8)) + 2))
    (reset_regs, frame Example3.meta [0xAA; 0xBB])
  = IDLE :: repeat SEND_HEADER (Z.to_nat (3 / (8 / 8)) - 1) ++ repeat COPY 2 ++ [IDLE].
Proof.
  split; [reflexivity|]. split; [exact example_geometry|].
  exact (proj1 (proj2 (always_ready_timing Example3.sink_signals 8 Example3.layout 3 Example3.pk
                         (mkWord true false 0xAA false Example3.meta)
                         [mkWord false true 0xBB false Example3.meta]
                         eq_refl example_geometry eq_refl))).
Defined.

(** ** The encoder on any layout *)

Lemma fold_assign_bit_last obj len l n : forall s,
  flen s = len -> 0 <= len -> 0 <= n ->
  fields_in_range len (map snd l) = true ->
  Z.testbit (val (fold_left apply_assign (map (encode_field obj) l) s)) n
  = match find (fun kv => covers n (snd kv)) (rev l) with
    | Some kv => Z.testbit (val (reverse_bytes (obj (fst kv))))
                           (n - field_start (snd kv))
    | None => Z.testbit (val s) n
    end.
Proof.
  induction l as [|a l IH] using rev_ind; intros s Hs Hlen Hn Hr; [reflexivity|].
  rewrite map_app, fold_left_app, rev_app_distr. cbn [map fold_left rev app find].
  assert (Hr' : fields_in_range len (map snd l) = true).
  { unfold fields_in_range in *. rewrite map_app, forallb_app in Hr.
    now apply andb_prop in Hr as [? _]. }
  destruct (fields_in_range_bounds len _ (snd a) Hr
              ltac:(rewrite map_app; apply in_or_app; right; now left))
    as (H1 & H2 & H3 & H4).
  unfold apply_assign at 1.
  rewrite assign_slice_bit by (rewrite ?flen_fold_assign, ?Hs; lia).
  rewrite flen_fold_assign, Hs.
  change (a_start (encode_field obj a)) with (byte (snd a) * 8 + offset (snd a)).
  change (a_end (encode_field obj a))
    with (byte (snd a) * 8 + offset (snd a) + width (snd a)).
  change (a_rhs (encode_field obj a)) with (reverse_bytes (obj (fst a))).
  rewrite !slice_index_in by lia.
  unfold covers at 1, field_end, field_start.
  destruct ((byte (snd a) * 8 + offset (snd a) <=? n)
            && (n <? byte (snd a) * 8 + offset (snd a) + width (snd a)));
    [reflexivity|].
  now apply IH.
Qed.

(** X7: the header, bit by bit, on any layout.  For fields that lie
    inside the header, overlapping or not, every bit of the encoded
    header is the bit of the byte-reversed parameter of the last field, in
    the order of the field names, that covers it; a bit no field covers is
    0, and so is every bit beyond the header length. *)
Theorem encode_header_bits h_dict obj len n :
  0 <= len -> 0 <= n ->
  fields_in_range len (map snd h_dict) = true ->
  Z.testbit (val (run_assigns len (_encode_header h_dict obj))) n
  = match find (fun kv => covers n (snd kv)) (rev (sorted_items h_dict)) with
    | Some kv => Z.testbit (val (reverse_bytes (obj (fst kv))))
                           (n - (byte (snd kv) * 8 + offset (snd kv)))
    | None => false
    end /\
  (len <= n -> Z.testbit (val (run_assigns len (_encode_header h_dict obj))) n = false).
Proof.
  intros Hlen Hn Hr.
  assert (Hr' : fields_in_range len (map snd (sorted_items h_dict)) = true).
  { apply (fields_in_range_perm len h_dict); [apply sorted_items_perm|exact Hr]. }
  assert (E := fold_assign_bit_last obj len (sorted_items h_dict) n (mkSig len 0)
                 eq_refl Hlen Hn Hr').
  cbn [val] in E. rewrite Z.testbit_0_l in E.
  unfold run_assigns, _encode_header. split; [exact E|].
  intros Hbig. rewrite E.
  destruct (find _ (rev (sorted_items h_dict))) as [kv|] eqn:F; [|reflexivity].
  apply find_some in F as [Hin Hc]. apply in_rev in Hin.
  destruct (fields_in_range_bounds len _ (snd kv) Hr' (in_map snd _ _ Hin))
    as (H1 & H2 & H3 & H4).
  unfold covers, field_end, field_start in Hc.
  apply andb_prop in Hc as [_ Hc%Z.ltb_lt]. lia.
Qed.

Lemma encode_header_bits_witness :
  0 <= 24 /\ 0 <= 8 /\
  fields_in_range 24 (map snd Overlap.overlapping_layout) = true /\
  Z.testbit (val (run_assigns 24 (_encode_header Overlap.overlapping_layout
                                    (fun _ => drive 16 0x00FF)))) 8
  = Z.testbit (val (reverse_bytes (drive 16 0x00FF))) (8 - (1 * 8 + 0)).
Proof.
  split; [discriminate|]. split; [discriminate|]. split; [reflexivity|].
  exact (proj1 (encode_header_bits Overlap.overlapping_layout
                  (fun _ => drive 16 0x00FF) 24 8
                  ltac:(discriminate) ltac:(discriminate) eq_refl)).
Defined.

(** ** The order of the dict does not matter *)

Lemma string_compare_trans_le : forall s1 s2 s3,
  String.compare s1 s2 <> Gt -> String.compare s2 s3 <> Gt ->
  String.compare s1 s3 <> Gt.
Proof.
  induction s1 as [|c1 s1 IH]; intros [|c2 s2] [|c3 s3]; cbn;
    try congruence.
  unfold Ascii.compare.
  destruct (N.compare_spec (Ascii.N_of_ascii c1) (Ascii.N_of_ascii c2)) as [E12|L12|G12];
    destruct (N.compare_spec (Ascii.N_of_ascii c2) (Ascii.N_of_ascii c3)) as [E23|L23|G23];
    intros H12 H23; try congruence.
  - rewrite E12, E23, N.compare_refl. now apply (IH s2).
  - rewrite E12. now rewrite (proj2 (N.compare_lt_iff _ _) L23).
  - rewrite <- E23. now rewrite (proj2 (N.compare_lt_iff _ _) L12).
  - now rewrite (proj2 (N.compare_lt_iff _ _) (N.lt_trans _ _ _ L12 L23)).
Qed.

Lemma string_leb_trans s1 s2 s3 :
  String.leb s1 s2 = true -> String.leb s2 s3 = true -> String.leb s1 s3 = true.
Proof.
  unfold String.leb. intros H12 H23.
  pose proof (string_compare_trans_le s1 s2 s3) as H.
  destruct (String.compare s1 s2); destruct (String.compare s2 s3);
    destruct (String.compare s1 s3); try reflexivity; try discriminate;
    exfalso; apply H; congruence.
Qed.

Lemma string_leb_false s1 s2 :
  String.leb s1 s2 = false -> String.leb s2 s1 = true.
Proof.
  intros H. destruct (String.leb_total s1 s2) as [H'|H']; congruence.
Qed.

Lemma string_leb_asym s1 s2 :
  s1 <> s2 -> String.leb s1 s2 = true -> String.leb s2 s1 = false.
Proof.
  intros Hne H. destruct (String.leb s2 s1) eqn:H'; [|reflexivity].
  elim Hne. now apply String.leb_antisym.
Qed.

Lemma insert_item_comm x y l :
  fst x <> fst y ->
  insert_item x (insert_item y l) = insert_item y (insert_item x l).
Proof.
  intros Hxy.
  induction l as [|z l IH].
  - cbn. destruct (String.leb (fst x) (fst y)) eqn:Exy.
    + now rewrite (string_leb_asym _ _ Hxy Exy).
    + now rewrite (string_leb_false _ _ Exy).
  - cbn [insert_item].
    destruct (String.leb (fst y) (fst z)) eqn:Eyz;
      destruct (String.leb (fst x) (fst z)) eqn:Exz; cbn [insert_item];
      rewrite ?Eyz, ?Exz.
    + destruct (String.leb (fst x) (fst y)) eqn:Exy.
      * now rewrite (string_leb_asym _ _ Hxy Exy).
      * now rewrite (string_leb_false _ _ Exy).
    + destruct (String.leb (fst x) (fst y)) eqn:Exy; [|reflexivity].
      pose proof (string_leb_trans _ _ _ Exy Eyz). congruence.
    + destruct (String.leb (fst y) (fst x)) eqn:Eyx; [|reflexivity].
      pose proof (string_leb_trans _ _ _ Eyx Exz). congruence.
    + now rewrite IH.
Qed.

(** X8: the order in which the dict lists its fields does not matter.
    For field names that are all different, as the keys of a dict are, two
    dicts holding the same items give the same list of assignments, in
    the same order, and so the same header, even when fields overlap. *)
Theorem encode_header_dict_order h_dict h_dict' obj :
  NoDup (map fst h_dict) ->
  Permutation h_dict h_dict' ->
  _encode_header h_dict' obj = _encode_header h_dict obj /\
  forall len,
    run_assigns len (_encode_header h_dict' obj)
    = run_assigns len (_encode_header h_dict obj).
Proof.
  intros Hnd Hperm.
  assert (Hs : sorted_items h_dict' = sorted_items h_dict).
  { unfold sorted_items.
    induction Hperm as [|x l l' Hp IH|x y l|l l' l'' Hp1 IH1 Hp2 IH2].
    - reflexivity.
    - cbn [fold_right]. rewrite IH; [reflexivity|]. now inversion Hnd.
    - cbn [fold_right]. apply insert_item_comm.
      cbn in Hnd. inversion Hnd as [|? ? Hin _]. intros E. apply Hin. now left.
    - rewrite IH2, IH1; [reflexivity|assumption|].
      apply (Permutation_NoDup (l := map fst l)); [|assumption].
      now apply Permutation_map. }
  unfold _encode_header. rewrite Hs. split; reflexivity.
Qed.

Lemma encode_header_dict_order_witness :
  NoDup (map fst Example3.layout) /\
  Permutation Example3.layout (rev Example3.layout) /\
  _encode_header (rev Example3.layout) Example3.meta
  = _encode_header Example3.layout Example3.meta.
Proof.
  assert (Hnd : NoDup (map fst Example3.layout)).
  { repeat constructor; cbn; intuition discriminate. }
  assert (Hp : Permutation Example3.layout (rev Example3.layout))
    by apply Permutation_rev.
  split; [exact Hnd|]. split; [exact Hp|].
  exact (proj1 (encode_header_dict_order Example3.layout (rev Example3.layout)
                  Example3.meta Hnd Hp)).
Defined.

(** * The Coreblocks CPU wrapper *)

Lemma get_variant_cases {A} (f m st fu : A) v :
  Coreblocks.get
    [("minimal"%string, m); ("standard"%string, st); ("full"%string, fu)] v
  = Some f ->
  (v = "minimal"%string /\ f = m) \/ (v = "standard"%string /\ f = st)
  \/ (v = "full"%string /\ f = fu).
Proof.
  unfold Coreblocks.get. cbn [find fst snd].
  destruct (String.eqb_spec "minimal" v) as [<-|_]; [intros [= <-]; auto|].
  destruct (String.eqb_spec "standard" v) as [<-|_]; [intros [= <-]; auto|].
  destruct (String.eqb_spec "full" v) as [<-|_]; [intros [= <-]; auto|].
  discriminate.
Qed.

Lemma init_inr v cpu :
  Coreblocks.init v = inr cpu ->
  exists config,
    Coreblocks.get Coreblocks.CPU_VARIANTS v = Some config /\
    cpu = Coreblocks.mkCpu v ("Coreblocks-" ++ config)%string None.
Proof.
  unfold Coreblocks.init, Coreblocks.getitem.
  destruct (Coreblocks.get Coreblocks.CPU_VARIANTS v) as [config|];
    [|discriminate].
  intros [= <-]. now exists config.
Qed.

(** X9: the two tables of variants agree.  Constructing a [Coreblocks]
    fails with [KeyError] exactly when the variant has no entry of GCC
    flags; for every object that was constructed, [gcc_flags] does not
    raise and returns the flags of the variant followed by the define of
    the core.  The default variant is one of those accepted. *)
Theorem variant_tables_agree v :
  (exists cpu, Coreblocks.init_default = inr cpu) /\
  (forall cpu, Coreblocks.init v = inr cpu ->
     exists flags,
       Coreblocks.get Coreblocks.GCC_FLAGS v = Some flags /\
       Coreblocks.gcc_flags cpu = inr (flags ++ "-D__coreblocks__ ")%string) /\
  (forall e, Coreblocks.init v = inl e ->
     e = Coreblocks.KeyError v /\
     Coreblocks.get Coreblocks.GCC_FLAGS v = None).
Proof.
  split; [eexists; reflexivity|]. split.
  - intros cpu H. apply init_inr in H as (config & Hc & ->).
    unfold Coreblocks.gcc_flags, Coreblocks.getitem. cbn [Coreblocks.variant].
    apply get_variant_cases in Hc as [[-> _]|[[-> _]|[-> _]]];
      eexists; split; reflexivity.
  - intros e. unfold Coreblocks.init, Coreblocks.getitem, Coreblocks.get.
    unfold Coreblocks.CPU_VARIANTS, Coreblocks.GCC_FLAGS. cbn [find fst snd].
    destruct (String.eqb "minimal" v); [discriminate|].
    destruct (String.eqb "standard" v); [discriminate|].
    destruct (String.eqb "full" v); [discriminate|].
    intros [= <-]. split; reflexivity.
Qed.

(** X10: the sixteen platform interrupts are moved to the identifiers
    16 to 31.  Whatever value drives the 16-bit [interrupt] signal, bit
    [16+n] of [interrupts_full] is bit [n] of it, the sixteen low bits of
    [interrupts_full] are 0, nothing lies beyond bit 31, and shifting back
    gives the interrupt lines again: none is lost. *)
Theorem interrupts_full_bits x :
  let full := val (Coreblocks.interrupts_full (drive 16 x)) in
  (forall n, 0 <= n < 16 -> Z.testbit full (16 + n) = Z.testbit x n) /\
  (forall n, 0 <= n < 16 -> Z.testbit full n = false) /\
  (forall n, 32 <= n -> Z.testbit full n = false) /\
  Z.shiftr full 16 = val (drive 16 x).
Proof.
  cbn zeta. unfold Coreblocks.interrupts_full, drive. cbn [val].
  change (Z.max 0 32) with 32. change (Z.max 0 16) with 16.
  assert (Hbit : forall n, 0 <= n ->
            Z.testbit (Z.land (Z.shiftl (Z.land x (Z.ones 16)) 16) (Z.ones 32)) n
            = Z.testbit x (n - 16) && (16 <=? n) && (n <? 32)).
  { intros n Hn. rewrite Z.land_spec, Z.testbit_ones_nonneg by lia.
    destruct (Z.leb_spec 16 n).
    - rewrite Z.shiftl_spec, Z.land_spec, Z.testbit_ones_nonneg by lia.
      destruct (Z.ltb_spec n 32).
      + replace (n - 16 <? 16) with true by by_cmp. now rewrite !andb_true_r.
      + now rewrite !andb_false_r.
    - rewrite Z.shiftl_spec_low by lia. now rewrite andb_false_r. }
  repeat split.
  - intros n Hn. rewrite Hbit by lia.
    replace (16 + n - 16) with n by lia.
    replace (16 <=? 16 + n) with true by (symmetry; apply Z.leb_le; lia).
    replace (16 + n <? 32) with true by by_cmp. now rewrite !andb_true_r.
  - intros n Hn. rewrite Hbit by lia.
    replace (16 <=? n) with false by (symmetry; apply Z.leb_gt; lia).
    now rewrite andb_false_r.
  - intros n Hn. rewrite Hbit by lia.
    replace (n <? 32) with false by by_cmp. now rewrite andb_false_r.
  - apply Z.bits_inj'; intros n Hn.
    rewrite Z.shiftr_spec, Hbit, Z.land_spec, Z.testbit_ones_nonneg by lia.
    replace (n + 16 - 16) with n by lia.
    replace (16 <=? n + 16) with true by (symmetry; apply Z.leb_le; lia).
    rewrite andb_true_r. f_equal.
    destruct (Z.ltb_spec n 16); first [by_cmp | symmetry; by_cmp].
Qed.

(** X11: [elaborate] and its command line.  For a variant that is not in
    the table the call raises [KeyError] before anything is run.
    Otherwise exactly one command is run, the generator script with the
    output file, the configuration of the variant and [--soc]; no source is
    added; the call succeeds exactly when the command exits with status 0,
    and on failure the command is printed and [OSError] raised.  The reset
    address takes no part in any of this. *)
Theorem elaborate_outcome env v address f w :
  (forall address', Coreblocks.elaborate env v address' f w
                    = Coreblocks.elaborate env v address f w) /\
  (Coreblocks.get Coreblocks.CPU_VARIANTS v = None ->
   Coreblocks.elaborate env v address f w = (Some (Coreblocks.KeyError v), w)) /\
  (forall config, Coreblocks.get Coreblocks.CPU_VARIANTS v = Some config ->
     let argv := ["python3"%string;
                  Coreblocks.path_join (Coreblocks.data_location env)
                    ["scripts"%string; "gen_verilog.py"%string];
                  ("--output=" ++ f)%string;
                  ("--config=" ++ config)%string;
                  "--soc"%string] in
     let r := Coreblocks.elaborate env v address f w in
     Coreblocks.commands (snd r) = Coreblocks.commands w ++ [argv] /\
     Coreblocks.sources (snd r) = Coreblocks.sources w /\
     (fst r = None <-> Coreblocks.exit_status env argv = 0) /\
     (Coreblocks.exit_status env argv = 0 ->
      Coreblocks.printed (snd r) = Coreblocks.printed w) /\
     (Coreblocks.exit_status env argv <> 0 ->
      Coreblocks.printed (snd r) = Coreblocks.printed w ++ [argv] /\
      exists msg, fst r = Some (Coreblocks.OSError msg))).
Proof.
  split; [reflexivity|]. split.
  - intros H. unfold Coreblocks.elaborate, Coreblocks.getitem. now rewrite H.
  - intros config H argv r. subst r.
    unfold Coreblocks.elaborate, Coreblocks.getitem. rewrite H.
    cbn [app]. unfold Coreblocks.format. fold argv.
    destruct (Z.eqb_spec (Coreblocks.exit_status env argv) 0) as [E|E];
      cbn [fst snd Coreblocks.commands Coreblocks.sources Coreblocks.printed].
    + repeat split; auto; intros; contradiction.
    + repeat split; auto; try discriminate; try contradiction.
      eexists; reflexivity.
Qed.

(** X12: from construction to the generated source.  On a freshly
    constructed object [do_finalize] fails its assertion at once, running
    no command and adding no source.  [set_reset_address] returns normally
    exactly for the address 0 but records the address in either case;
    after it [do_finalize] raises neither [AssertionError] nor [KeyError]:
    it runs the generator once, for the file [gateware/core.v] under the
    output directory of the platform, and adds that file to the sources of
    the platform exactly when the generator exits with status 0; otherwise
    it fails with [OSError] and adds nothing. *)
Theorem finalize_after_reset_address env v cpu address w :
  Coreblocks.init v = inr cpu ->
  let cpu' := snd (Coreblocks.set_reset_address cpu address) in
  let file := Coreblocks.path_join (Coreblocks.platform_output_dir env)
                ["gateware"%string; "core.v"%string] in
  Coreblocks.do_finalize env cpu w = (Some Coreblocks.AssertionError, w) /\
  (fst (Coreblocks.set_reset_address cpu address) = None <-> address = 0) /\
  Coreblocks.reset_address cpu' = Some address /\
  exists config,
    Coreblocks.get Coreblocks.CPU_VARIANTS v = Some config /\
    let argv := ["python3"%string;
                 Coreblocks.path_join (Coreblocks.data_location env)
                   ["scripts"%string; "gen_verilog.py"%string];
                 ("--output=" ++ file)%string;
                 ("--config=" ++ config)%string;
                 "--soc"%string] in
    (Coreblocks.exit_status env argv = 0 ->
     Coreblocks.do_finalize env cpu' w
     = (None, Coreblocks.mkWorld (Coreblocks.sources w ++ [file])
                                 (Coreblocks.commands w ++ [argv])
                                 (Coreblocks.printed w))) /\
    (Coreblocks.exit_status env argv <> 0 ->
     exists msg,
       Coreblocks.do_finalize env cpu' w
       = (Some (Coreblocks.OSError msg),
          Coreblocks.mkWorld (Coreblocks.sources w)
                             (Coreblocks.commands w ++ [argv])
                             (Coreblocks.printed w ++ [argv]))).
Proof.
  intros H cpu' file. apply init_inr in H as (config & Hc & ->).
  split; [reflexivity|]. split.
  - unfold Coreblocks.set_reset_address. cbn [fst].
    destruct (Z.eqb_spec address 0); split; congruence.
  - split; [reflexivity|]. exists config. split; [exact Hc|].
    intros argv. subst cpu'.
    unfold Coreblocks.do_finalize, Coreblocks.set_reset_address.
    cbn [snd Coreblocks.reset_address Coreblocks.variant].
    fold file. unfold Coreblocks.elaborate, Coreblocks.getitem. rewrite Hc.
    cbn [app]. unfold Coreblocks.format. fold argv.
    split; intros E.
    + rewrite E. reflexivity.
    + destruct (Z.eqb_spec (Coreblocks.exit_status env argv) 0); [contradiction|].
      eexists. reflexivity.
Qed.

Lemma finalize_after_reset_address_witness :
  Coreblocks.init "full" = inr (Coreblocks.mkCpu "full" "Coreblocks-full" None) /\
  Coreblocks.do_finalize
    (Coreblocks.mkEnv "build" "/data/" (fun _ => 0))
    (snd (Coreblocks.set_reset_address
            (Coreblocks.mkCpu "full" "Coreblocks-full" None) 4))
    (Coreblocks.mkWorld [] [] [])
  = (None,
     Coreblocks.mkWorld
       ["build/gateware/core.v"%string]
       [["python3"%string; "/data/scripts/gen_verilog.py"%string;
         "--output=build/gateware/core.v"%string; "--config=full"%string;
         "--soc"%string]]
       []).
Proof.
  split; [reflexivity|].
  destruct (finalize_after_reset_address
              (Coreblocks.mkEnv "build" "/data/" (fun _ => 0)) "full"
              (Coreblocks.mkCpu "full" "Coreblocks-full" None) 4
              (Coreblocks.mkWorld [] [] []) eq_refl)
    as (_ & _ & _ & config & Hc & Hok & _).
  injection Hc as <-. exact (Hok eq_refl).
Defined.
